(** * Wavelet-threshold denoising of 2-D images

    A shallow embedding of [wavelet_denoise.py]: the functions
    [wavelet_denoise] and [extract_noise] and the in-memory part of
    [process_fits_file].

    Conventions of the model.
    - numpy's float64 samples are idealised as real numbers ([R]); rounding,
      infinities and NaN are outside the model.  The one place where the
      program leaves the numbers on finite data, the library's soft rule at a
      zero coefficient with a threshold that is not positive, is given by
      [pywt_soft]; statements that depend on it say so.
    - A 2-D numpy array is the list of its rows.
    - PyWavelets ([pywt]) is an external library: its transforms are the
      fields of the class [PyWavelets]; every statement below holds for any
      implementation of that interface.  Module [Haar] gives one concrete
      implementation, used to run the pipeline on explicit images.
    - A Python exception is the [Raise] branch of [result].
    - The diagnostic [print] calls have no influence on the returned arrays
      and are left out. *)

From Stdlib Require Import String ZArith Reals Lra Lia List Bool Arith.
From Stdlib Require Import Permutation Sorted.
From Stdlib Require Import Ascii.
Import ListNotations.
Open Scope R_scope.

(** ** Exceptions *)

Inductive exn : Type :=
| ValueError (msg : string).

Inductive result (A : Type) : Type :=
| Ok (a : A)
| Raise (e : exn).

Arguments Ok {A} a.
Arguments Raise {A} e.

Definition bind {A B : Type} (m : result A) (k : A -> result B) : result B :=
  match m with
  | Ok a => k a
  | Raise e => Raise e
  end.

Notation "x <- m ;; k" := (bind m (fun x => k))
  (at level 61, m at next level, right associativity).
Notation "' p <- m ;; k" := (bind m (fun x => let p := x in k))
  (at level 61, p pattern, m at next level, right associativity).

(** ** numpy arrays and the numpy functions the code calls *)

Definition array2d : Type := list (list R).

(** [a.shape]; an array without rows is given zero columns. *)
Definition shape (a : array2d) : nat * nat :=
  (List.length a, match a with [] => 0%nat | r :: _ => List.length r end).

Definition shape_eqb (s1 s2 : nat * nat) : bool :=
  (fst s1 =? fst s2)%nat && (snd s1 =? snd s2)%nat.

(** [a.size] *)
Definition size (a : array2d) : nat := (fst (shape a) * snd (shape a))%nat.

(** The row-major sequence of the samples, on which numpy's reductions work. *)
Definition ravel (a : array2d) : list R := concat a.

(** [a[:h, :w]] *)
Definition crop (h w : nat) (a : array2d) : array2d :=
  map (firstn w) (firstn h a).

(** every row of [a] has [w] samples *)
Definition rectangular (w : nat) (a : array2d) : Prop :=
  Forall (fun r => List.length r = w) a.

(** [a[r, c]] *)
Definition sample (a : array2d) (r c : nat) : option R :=
  match nth_error a r with
  | Some row => nth_error row c
  | None => None
  end.

(** two arrays with as many rows and, row by row, as many samples *)
Definition same_shape (a b : array2d) : Prop :=
  Forall2 (fun r s : list R => List.length r = List.length s) a b.

Definition np_abs (l : list R) : list R := map Rabs l.

Fixpoint insert (x : R) (l : list R) : list R :=
  match l with
  | [] => [x]
  | y :: t => if Rle_dec x y then x :: l else y :: insert x t
  end.

Fixpoint sort (l : list R) : list R :=
  match l with
  | [] => []
  | x :: t => insert x (sort t)
  end.

(** [np.median] of a flattened array: the middle sample of the sorted
    sequence, or the mean of the two middle ones.  numpy answers NaN on an
    empty array; the model answers 0 there, a value no result depends on
    (an empty subband has no sample to shrink). *)
Definition np_median (l : list R) : R :=
  let s := sort l in
  let n := List.length l in
  if Nat.even n
  then (nth (n / 2 - 1) s 0 + nth (n / 2) s 0) / 2
  else nth (n / 2) s 0.

(** Elementwise binary operation on two arrays of one shape. *)
Fixpoint zip_with {A B C : Type} (f : A -> B -> C) (l1 : list A) (l2 : list B)
  : list C :=
  match l1, l2 with
  | x :: t1, y :: t2 => f x y :: zip_with f t1 t2
  | _, _ => []
  end.

Definition rows_same_length (a b : array2d) : bool :=
  forallb (fun p => (List.length (fst p) =? List.length (snd p))%nat)
          (combine a b).

(** [a - b] and [a + b] on arrays.  Operands of unequal shape, which numpy
    either broadcasts along an axis of length one or rejects, are reported
    as the error; the pipeline only subtracts arrays of one shape. *)
Definition np_binop (f : R -> R -> R) (a b : array2d) : result array2d :=
  if ((List.length a =? List.length b)%nat && rows_same_length a b)%bool
  then Ok (zip_with (zip_with f) a b)
  else Raise (ValueError "operands could not be broadcast together").

Definition np_subtract : array2d -> array2d -> result array2d :=
  np_binop Rminus.
Definition np_add : array2d -> array2d -> result array2d :=
  np_binop Rplus.

(** [np.sign] *)
Definition np_sign (x : R) : R :=
  if Rlt_dec x 0 then -1 else if Rlt_dec 0 x then 1 else 0.

(** ** The coefficient list of [pywt.wavedec2]

    [wavedec2] returns the Python list
    [[cA_n, (cH_n, cV_n, cD_n), ..., (cH_1, cV_1, cD_1)]]: entry 0 is the
    approximation, entry [i >= 1] the triple of detail subbands of one level,
    horizontal, vertical, diagonal in this order, coarsest level first. *)

Definition detail_level : Type := (array2d * array2d * array2d)%type.

Record coeffs : Type := mkCoeffs {
  approx : array2d;
  details : list detail_level
}.

Inductive orientation : Type := HORIZONTAL | VERTICAL | DIAGONAL.

(** Position of an orientation inside the triple of a level. *)
Definition orientation_index (o : orientation) : nat :=
  match o with
  | HORIZONTAL => 0
  | VERTICAL => 1
  | DIAGONAL => 2
  end.

Definition pick (o : orientation) (ld : detail_level) : array2d :=
  let '(cH, cV, cD) := ld in
  match o with
  | HORIZONTAL => cH
  | VERTICAL => cV
  | DIAGONAL => cD
  end.

(** The subband of orientation [o] in entry [i] of the list, [i >= 1]. *)
Definition subband (c : coeffs) (i : nat) (o : orientation) : option array2d :=
  match i with
  | O => None
  | S k => option_map (pick o) (nth_error (details c) k)
  end.

(** [coeffs[-1]], as the sequence of the arrays it holds: the three subbands
    of the last detail level, or the approximation alone when the list has
    no detail level. *)
Definition last_entry (c : coeffs) : list array2d :=
  match rev (details c) with
  | (cH, cV, cD) :: _ => [cH; cV; cD]
  | [] => [approx c]
  end.

(** ** The PyWavelets interface *)

Class PyWavelets : Type := {
  (** [pywt.wavedec2(image, wavelet, level=levels)] *)
  wavedec2 : array2d -> string -> Z -> result coeffs;
  (** [pywt.waverec2(coeffs, wavelet)] *)
  waverec2 : coeffs -> string -> result array2d;
  (** the elementwise rules of [pywt.threshold] for mode names other than
      ['soft'] and ['hard']; [None] for a name the library rejects *)
  threshold_other : string -> option (R -> R -> R);
  (** whether the hard rule keeps a coefficient whose magnitude equals the
      threshold (PyWavelets zeroes magnitudes strictly below it) *)
  hard_keeps_tie : bool
}.

Section Denoise.

Context {pywt : PyWavelets}.

(** *** [pywt.threshold] *)

(** soft rule: the magnitude is reduced by [value], not below 0.  This is
    what the library computes wherever its result is a number, that is for
    [x <> 0] or [0 < value] (lemma [pywt_soft_number]); at a zero sample
    with [value <= 0] the library returns NaN, see [pywt_soft]. *)
Definition soft (value x : R) : R :=
  np_sign x * Rmax (Rabs x - value) 0.

(** hard rule: a magnitude below [value] gives 0, one above is kept *)
Definition hard (value x : R) : R :=
  if Rlt_dec (Rabs x) value then 0
  else if Req_dec_T (Rabs x) value
       then (if hard_keeps_tie then x else 0)
       else x.

Definition shrink_rule (mode : string) : result (R -> R -> R) :=
  if (mode =? "soft")%string then Ok soft
  else if (mode =? "hard")%string then Ok hard
  else match threshold_other mode with
       | Some f => Ok f
       | None => Raise (ValueError "The mode parameter is not supported")
       end.

Definition pywt_threshold (data : array2d) (value : R) (mode : string)
  : result array2d :=
  f <- shrink_rule mode ;;
  Ok (map (map (f value)) data).

(** *** [wavelet_denoise] *)

(** The noise estimator, [np.median(np.abs(x)) / 0.6745], on the samples [l]
    of an array. *)
Definition estimate_sigma (l : list R) : R := np_median (np_abs l) / 0.6745.

(** Lines 35-40: the estimate taken when no [sigma] is given. *)
Definition global_sigma (image : array2d) (wavelet : string) : result R :=
  coeffs <- wavedec2 image wavelet 1 ;;
  Ok (estimate_sigma (concat (map ravel (last_entry coeffs)))).

(** Lines 55-75: one level of the adaptive branch; the inner loop over
    [enumerate(level_detail)] is written out for the three subbands. *)
Definition adaptive_level (mode : string) (threshold_factor : R) (i : nat)
    (level_detail : detail_level) : result detail_level :=
  let level_factor := threshold_factor * (0.5 ^ (i - 1)) in
  let shrink (j : nat) (detail : array2d) : result array2d :=
    let local_sigma := np_median (np_abs (ravel detail)) / 0.6745 in
    let threshold :=
      if (j =? 2)%nat
      then local_sigma * level_factor * 2.0
      else local_sigma * level_factor * 1.5 in
    pywt_threshold detail threshold mode in
  let '(cH, cV, cD) := level_detail in
  h <- shrink 0%nat cH ;;
  v <- shrink 1%nat cV ;;
  d <- shrink 2%nat cD ;;
  Ok (h, v, d).

(** Lines 80-84 and 88-92: one level of the two other branches. *)
Definition universal_level (mode : string) (sigma threshold_factor : R)
    (image_size : nat) (level_detail : detail_level) : result detail_level :=
  let threshold :=
    sigma * threshold_factor * sqrt (2 * ln (INR image_size)) in
  let '(cH, cV, cD) := level_detail in
  h <- pywt_threshold cH threshold mode ;;
  v <- pywt_threshold cV threshold mode ;;
  d <- pywt_threshold cD threshold mode ;;
  Ok (h, v, d).

(** The body of the loop of line 51 at index [i]. *)
Definition threshold_level (method mode : string) (sigma threshold_factor : R)
    (image_size : nat) (i : nat) (level_detail : detail_level)
  : result detail_level :=
  if (method =? "adaptive")%string then
    adaptive_level mode threshold_factor i level_detail
  else if (method =? "bayes")%string then
    universal_level mode sigma threshold_factor image_size level_detail
  else
    universal_level mode sigma threshold_factor image_size level_detail.

(** The loop [for i in range(1, len(coeffs))], from index [i] on. *)
Fixpoint threshold_levels (method mode : string) (sigma threshold_factor : R)
    (image_size : nat) (i : nat) (levels : list detail_level)
  : result (list detail_level) :=
  match levels with
  | [] => Ok []
  | level_detail :: rest =>
      t <- threshold_level method mode sigma threshold_factor image_size
             i level_detail ;;
      ts <- threshold_levels method mode sigma threshold_factor image_size
              (S i) rest ;;
      Ok (t :: ts)
  end.

(** Lines 46-93: [coeffs_thresh] from [coeffs]. *)
Definition threshold_coeffs (method mode : string) (sigma threshold_factor : R)
    (image_size : nat) (c : coeffs) : result coeffs :=
  ds <- threshold_levels method mode sigma threshold_factor image_size
          1%nat (details c) ;;
  Ok (mkCoeffs (approx c) ds).

(** Lines 99-101: the crop of the reconstruction to the shape of the image. *)
Definition fit_shape (image denoised : array2d) : array2d :=
  if negb (shape_eqb (shape denoised) (shape image))
  then crop (fst (shape image)) (snd (shape image)) denoised
  else denoised.

(** Lines 34-96: from the image to the array [pywt.waverec2] returns. *)
Definition reconstruction (image : array2d) (wavelet : string)
    (sigma : option R) (mode method : string) (levels : Z)
    (threshold_factor : R) : result array2d :=
  sigma <- match sigma with
           | None => global_sigma image wavelet
           | Some s => Ok s
           end ;;
  coeffs <- wavedec2 image wavelet levels ;;
  coeffs_thresh <- threshold_coeffs method mode sigma threshold_factor
                     (size image) coeffs ;;
  waverec2 coeffs_thresh wavelet.

Definition wavelet_denoise (image : array2d) (wavelet : string)
    (sigma : option R) (mode method : string) (levels : Z)
    (threshold_factor : R) : result array2d :=
  denoised <- reconstruction image wavelet sigma mode method levels
                threshold_factor ;;
  Ok (fit_shape image denoised).

(** *** [extract_noise] *)

Definition extract_noise (original denoised : array2d) : result array2d :=
  np_subtract original denoised.

(** *** [process_fits_file], from the loaded image to the two arrays it
    returns (reading and writing the files is left out) *)

Definition process_fits_file (image_data : array2d) (wavelet : string)
    (sigma : option R) (mode method : string) (levels : Z)
    (threshold_factor : R) : result (array2d * array2d) :=
  denoised_image <- wavelet_denoise image_data wavelet sigma mode method
                      levels threshold_factor ;;
  noise_image <- extract_noise image_data denoised_image ;;
  Ok (denoised_image, noise_image).

End Denoise.

(** ** The threshold policy in the words of the specification *)

(** orientation multiplier: 2.0 for DIAGONAL, 1.5 for HORIZONTAL/VERTICAL *)
Definition orientation_multiplier (o : orientation) : R :=
  match o with
  | DIAGONAL => 2.0
  | HORIZONTAL | VERTICAL => 1.5
  end.

(** local_sigma × threshold_factor × 0.5^(i-1) × orientation multiplier *)
Definition spec_adaptive_threshold (sb : array2d) (threshold_factor : R)
    (i : nat) (o : orientation) : R :=
  estimate_sigma (ravel sb) * threshold_factor * (0.5 ^ (i - 1))
  * orientation_multiplier o.

(** sigma × threshold_factor × sqrt(2 × ln(N)) *)
Definition spec_universal_threshold (sigma threshold_factor : R) (N : nat) : R :=
  sigma * threshold_factor * sqrt (2 * ln (INR N)).

(** the elementwise rule [f] applied with threshold [value] to a subband *)
Definition shrink_with (f : R -> R -> R) (value : R) (sb : array2d) : array2d :=
  map (map (f value)) sb.

(** every subband of a level shrunk independently, with the threshold of
    its own level, orientation and local sigma *)
Definition spec_adaptive_level (f : R -> R -> R) (threshold_factor : R)
    (i : nat) (ld : detail_level) : detail_level :=
  let '(cH, cV, cD) := ld in
  (shrink_with f (spec_adaptive_threshold cH threshold_factor i HORIZONTAL) cH,
   shrink_with f (spec_adaptive_threshold cV threshold_factor i VERTICAL) cV,
   shrink_with f (spec_adaptive_threshold cD threshold_factor i DIAGONAL) cD).

(** the detail levels from level [i] on, each shrunk as above *)
Fixpoint spec_adaptive_levels (f : R -> R -> R) (threshold_factor : R)
    (i : nat) (levels : list detail_level) : list detail_level :=
  match levels with
  | [] => []
  | ld :: rest =>
      spec_adaptive_level f threshold_factor i ld
      :: spec_adaptive_levels f threshold_factor (S i) rest
  end.

(** one shrinkage [g] applied to every detail subband, the approximation
    passed through *)
Definition map_details (g : array2d -> array2d) (c : coeffs) : coeffs :=
  mkCoeffs (approx c)
           (map (fun ld : detail_level =>
                   let '(cH, cV, cD) := ld in (g cH, g cV, g cD))
                (details c)).

(** the arrays of the coarsest detail level, entry 1 of the list *)
Definition coarsest_entry (c : coeffs) : list array2d :=
  match details c with
  | (cH, cV, cD) :: _ => [cH; cV; cD]
  | [] => []
  end.

(** every sample of the subband equals [v] *)
Definition all_equal (v : R) (sb : array2d) : Prop :=
  Forall (Forall (eq v)) sb.

(** ** Counting zeroed coefficients *)

Definition is_zero (x : R) : bool :=
  if Req_dec_T x 0 then true else false.

Definition count_zeros (l : list R) : nat :=
  List.length (filter is_zero l).

(** the samples of all detail subbands, level by level *)
Definition detail_samples (c : coeffs) : list R :=
  flat_map (fun ld : detail_level =>
              let '(cH, cV, cD) := ld in ravel cH ++ ravel cV ++ ravel cD)
           (details c).

(** number of detail coefficients that are zero *)
Definition zero_details (c : coeffs) : nat := count_zeros (detail_samples c).

(** number of positions holding a nonzero sample before and zero after *)
Definition zeroed_by_shrinkage (before after : list R) : nat :=
  List.length
    (filter (fun p => negb (is_zero (fst p)) && is_zero (snd p))
            (combine before after)).

(** ** A concrete transform library: the Haar basis

    The separable 2-D Haar transform with the edge sample repeated on an odd
    axis, which is what [pywt] computes for the basis ['haar'] under its
    default boundary rule.  On a 2x2 block [[a b] [c d]] the four
    coefficients are (a+b+c+d)/2, (a+b-c-d)/2, (a-b+c-d)/2 and (a-b-c+d)/2.
    The instance knows this one basis and the modes 'soft' and 'hard' only:
    every other basis or mode name is rejected by it. *)

Module Haar.

Fixpoint pairs {A : Type} (l : list A) : list (A * A) :=
  match l with
  | [] => []
  | [a] => [(a, a)]
  | a :: b :: t => (a, b) :: pairs t
  end.

Definition blocks (rp : list R * list R) : list ((R * R) * (R * R)) :=
  combine (pairs (fst rp)) (pairs (snd rp)).

Definition band (f : R -> R -> R -> R -> R) (a : array2d) : array2d :=
  map (fun rp => map (fun '((a, b), (c, d)) => f a b c d) (blocks rp))
      (pairs a).

Definition dwt2 (a : array2d) : array2d * detail_level :=
  (band (fun a b c d => (a + b + c + d) / 2) a,
   (band (fun a b c d => (a + b - c - d) / 2) a,
    band (fun a b c d => (a - b + c - d) / 2) a,
    band (fun a b c d => (a - b - c + d) / 2) a)).

Definition zip4 {A : Type} (l1 l2 l3 l4 : list A) : list (A * A * A * A) :=
  combine (combine (combine l1 l2) l3) l4.

Definition idwt_rows (q : list (R * R * R * R)) : list (list R) :=
  [ flat_map (fun '(ca, ch, cv, cd) =>
                [(ca + ch + cv + cd) / 2; (ca + ch - cv - cd) / 2]) q;
    flat_map (fun '(ca, ch, cv, cd) =>
                [(ca - ch + cv - cd) / 2; (ca - ch - cv + cd) / 2]) q ].

Definition idwt2 (cA : array2d) (d : detail_level) : array2d :=
  let '(cH, cV, cD) := d in
  flat_map (fun '(ra, rh, rv, rd) => idwt_rows (zip4 ra rh rv rd))
           (zip4 cA cH cV cD).

Fixpoint decompose (n : nat) (a : array2d) (acc : list detail_level) : coeffs :=
  match n with
  | O => mkCoeffs a acc
  | S n' => let '(cA, d) := dwt2 a in decompose n' cA (d :: acc)
  end.

(** An approximation one sample longer than the next details is trimmed. *)
Fixpoint reconstruct (a : array2d) (ds : list detail_level) : array2d :=
  match ds with
  | [] => a
  | d :: rest =>
      let '(h, w) := shape (pick HORIZONTAL d) in
      reconstruct (idwt2 (crop h w a) d) rest
  end.

Definition known (wavelet : string) : bool := (wavelet =? "haar")%string.

#[export] Instance lib : PyWavelets := {
  wavedec2 image wavelet level :=
    if negb (known wavelet) then Raise (ValueError "Unknown wavelet name")
    else if (level <? 0)%Z then Raise (ValueError "Level value is too low")
    else Ok (decompose (Z.to_nat level) image []);
  waverec2 c wavelet :=
    if negb (known wavelet) then Raise (ValueError "Unknown wavelet name")
    else Ok (reconstruct (approx c) (details c));
  threshold_other _ := None;
  hard_keeps_tie := true
}.

(** Sample images. *)

(** 4x4, constant on each 2x2 block *)
Definition blocky : array2d :=
  [ [1; 1; 0; 0];
    [1; 1; 0; 0];
    [0; 0; 0; 0];
    [0; 0; 0; 0] ].

(** 3x3, odd on both axes *)
Definition odd3 : array2d :=
  [ [1; 2; 3];
    [4; 5; 6];
    [7; 8; 10] ].

(** 2x2, a single bright sample *)
Definition impulse : array2d :=
  [ [4; 0];
    [0; 0] ].

End Haar.

(** [y] is [x] shrunk: no larger in magnitude, and not of the opposite sign *)
Definition shrunk (x y : R) : Prop := Rabs y <= Rabs x /\ 0 <= x * y.

(** * The code around the denoiser *)

(** ** NaN replacement in [process_fits_file] (lines 135-139)

    Here, and only here, a loaded sample is a real number or NaN ([None]).
    Infinities stay outside the model. *)

Definition raw_array : Type := list (list (option R)).

Definition isnan (x : option R) : bool :=
  match x with
  | None => true
  | Some _ => false
  end.

(** [np.any(np.isnan(image_data))] *)
Definition np_any_isnan (a : raw_array) : bool := existsb (existsb isnan) a.

(** the samples that are not NaN, in row-major order *)
Definition finite_values (a : raw_array) : list R :=
  flat_map (flat_map (fun x : option R =>
                        match x with Some v => [v] | None => [] end)) a.

(** [np.nanmedian]: the median of the samples that are not NaN, and NaN
    when there is none *)
Definition np_nanmedian (a : raw_array) : option R :=
  match finite_values a with
  | [] => None
  | _ :: _ => Some (np_median (finite_values a))
  end.

(** [np.nan_to_num(a, nan=v)] on data without infinite samples (the call
    would replace those by the largest finite floats) *)
Definition np_nan_to_num (a : raw_array) (nan : option R) : raw_array :=
  map (map (fun x : option R =>
              match x with Some v => Some v | None => nan end)) a.

Definition replace_nan (image_data : raw_array) : raw_array :=
  if np_any_isnan image_data then
    let median_val := np_nanmedian image_data in
    np_nan_to_num image_data median_val
  else image_data.

Fixpoint all_some {A : Type} (l : list (option A)) : option (list A) :=
  match l with
  | [] => Some []
  | Some x :: t => option_map (cons x) (all_some t)
  | None :: _ => None
  end.

(** the array of reals behind loaded data without NaN *)
Definition finite_array (a : raw_array) : option array2d :=
  all_some (map all_some a).

(** ** The soft rule of [pywt.threshold] with its NaN

    The library computes [x * max(1 - value / |x|, 0)] in IEEE arithmetic.
    For [x <> 0] this is a number.  For [x = 0] the quotient is [value / 0]:
    with a positive [value] it is +inf, [1 - inf] is clipped to 0 and the
    result is 0; with [value = 0] it is 0/0, and with a negative [value] the
    factor is +inf and the product 0 * inf: NaN in both cases ([None]). *)

Definition pywt_soft (value x : R) : option R :=
  if Req_dec_T x 0 then
    if Rlt_dec 0 value then Some 0 else None
  else Some (x * Rmax (1 - value / Rabs x) 0).

(** the soft rule applied to a subband, NaN included *)
Definition pywt_soft_threshold (data : array2d) (value : R) : raw_array :=
  map (map (pywt_soft value)) data.

(** Shrinking the detail coefficients of [c] in mode [mode] gives numbers
    whatever the thresholds are: the hard rule always does, the soft rule
    does when no detail coefficient is zero. *)
Definition shrinks_to_numbers (mode : string) (c : coeffs) : Prop :=
  mode = "hard"%string \/
  (mode = "soft"%string /\ Forall (fun x => x <> 0) (detail_samples c)).

(** ** Output file names

    [base] is the first component of [os.path.splitext(input_file)]. *)

(** wavelet_denoise.py, lines 257-258 *)
Definition denoised_file (base : string) : string :=
  (base ++ "_denoised.fits")%string.
Definition noise_file (base : string) : string :=
  (base ++ "_noise.fits")%string.

(** sharp_noise_config.py, lines 18-19 and 59-60 *)
Definition sharp_output_file (base output_suffix : string) : string :=
  (base ++ output_suffix ++ ".fits")%string.
Definition sharp_noise_file (base : string) : string :=
  (base ++ "_sharp_noise.fits")%string.
Definition ultra_sharp_noise_file (base : string) : string :=
  (base ++ "_ultra_sharp_noise.fits")%string.

(** ** The noise figures of [noise_detection_summary.py]
    (lines 28-29 and 87-88) *)

(** [np.sum(data != 0)] *)
Definition non_zero_pixels (data : array2d) : nat :=
  List.length (filter (fun x => negb (is_zero x)) (ravel data)).

(** [data.size] *)
Definition total_pixels (data : array2d) : nat := size data.

Definition noise_ratio (data : array2d) : R :=
  INR (non_zero_pixels data) / INR (total_pixels data) * 100.

(** number of positions at which two arrays differ *)
Definition changed_pixels (a b : array2d) : nat :=
  List.length
    (filter (fun p : R * R => if Req_dec_T (fst p) (snd p) then false else true)
            (combine (ravel a) (ravel b))).

(** * Properties *)

(** ** The exception monad *)

Lemma bind_Ok_inv {A B : Type} (m : result A) (k : A -> result B) (b : B) :
  bind m k = Ok b -> exists a, m = Ok a /\ k a = Ok b.
Proof.
  destruct m as [a | e]; simpl; intros E; [ | discriminate ].
  exists a; split; [ reflexivity | exact E ].
Qed.

Lemma bind_Raise_inv {A B : Type} (m : result A) (k : A -> result B) (e : exn) :
  bind m k = Raise e -> m = Raise e \/ exists a, m = Ok a /\ k a = Raise e.
Proof.
  destruct m as [a | e']; simpl; intros E.
  - right; exists a; split; [ reflexivity | exact E ].
  - left; inversion E; reflexivity.
Qed.

Ltac bind_inv H :=
  let a := fresh "a" in
  let Ha := fresh "E" in
  apply bind_Ok_inv in H; destruct H as (a & Ha & H).

(** ** Sorting and the median *)

Lemma insert_perm (x : R) (l : list R) : Permutation (insert x l) (x :: l).
Proof.
  induction l as [ | y t IH ]; simpl.
  - apply Permutation_refl.
  - destruct (Rle_dec x y).
    + apply Permutation_refl.
    + apply perm_trans with (y :: x :: t).
      * apply perm_skip, IH.
      * apply perm_swap.
Qed.

Lemma sort_perm (l : list R) : Permutation (sort l) l.
Proof.
  induction l as [ | x t IH ]; simpl.
  - apply perm_nil.
  - apply perm_trans with (x :: sort t).
    + apply insert_perm.
    + apply perm_skip, IH.
Qed.

Lemma sort_length (l : list R) : List.length (sort l) = List.length l.
Proof. apply Permutation_length, sort_perm. Qed.

Lemma insert_sorted (x : R) (l : list R) :
  Sorted Rle l -> Sorted Rle (insert x l).
Proof.
  induction l as [ | y t IH ]; simpl; intros S.
  - repeat constructor.
  - destruct (Rle_dec x y) as [Hle | Hgt].
    + constructor; [ exact S | constructor; exact Hle ].
    + inversion S as [ | ? ? St Hd ]; subst.
      constructor; [ apply IH, St | ].
      destruct t as [ | z t' ]; simpl.
      * constructor; lra.
      * destruct (Rle_dec x z); constructor; [ lra | ].
        inversion Hd; subst; assumption.
Qed.

(** [sort] does sort: [np_median] reads the middle of an ordered sequence. *)
Lemma sort_sorted (l : list R) : Sorted Rle (sort l).
Proof.
  induction l as [ | x t IH ]; simpl.
  - constructor.
  - apply insert_sorted, IH.
Qed.

Lemma sort_Forall (P : R -> Prop) (l : list R) :
  Forall P l -> Forall P (sort l).
Proof.
  intros H. eapply Permutation_Forall; [ | exact H ].
  apply Permutation_sym, sort_perm.
Qed.

Lemma nth_nonneg (l : list R) (k : nat) :
  Forall (fun x => 0 <= x) l -> 0 <= nth k l 0.
Proof.
  intros H. revert k.
  induction H as [ | x t Hx _ IH ]; intros [ | k ]; simpl; try lra.
  apply IH.
Qed.

Lemma np_median_singleton (x : R) : np_median [x] = x.
Proof. reflexivity. Qed.

Lemma np_median_nonneg (l : list R) :
  Forall (fun x => 0 <= x) l -> 0 <= np_median l.
Proof.
  intros H. unfold np_median.
  pose proof (sort_Forall _ _ H) as Hs.
  pose proof (nth_nonneg _ (List.length l / 2 - 1) Hs).
  pose proof (nth_nonneg _ (List.length l / 2) Hs).
  destruct (Nat.even (List.length l)); lra.
Qed.

Lemma np_abs_nonneg (l : list R) : Forall (fun x => 0 <= x) (np_abs l).
Proof.
  unfold np_abs. apply Forall_map, Forall_forall.
  intros x _. apply Rabs_pos.
Qed.

Lemma estimate_sigma_nonneg (l : list R) : 0 <= estimate_sigma l.
Proof.
  unfold estimate_sigma.
  pose proof (np_median_nonneg _ (np_abs_nonneg l)). lra.
Qed.

Lemma sort_repeat (v : R) (n : nat) : sort (repeat v n) = repeat v n.
Proof.
  induction n as [ | n IH ]; simpl; [ reflexivity | ].
  rewrite IH. destruct n as [ | n ]; simpl; [ reflexivity | ].
  destruct (Rle_dec v v) as [ _ | Hn ]; [ reflexivity | ].
  exfalso; apply Hn; lra.
Qed.

Lemma nth_repeat_lt (v : R) (n k : nat) :
  (k < n)%nat -> nth k (repeat v n) 0 = v.
Proof.
  revert k. induction n as [ | n IH ]; intros k Hk; [ lia | ].
  destruct k as [ | k ]; simpl; [ reflexivity | ].
  apply IH; lia.
Qed.

Lemma np_median_repeat (v : R) (n : nat) :
  (0 < n)%nat -> np_median (repeat v n) = v.
Proof.
  intros Hn. unfold np_median.
  rewrite sort_repeat, repeat_length.
  assert (n / 2 < n)%nat by (apply Nat.div_lt; lia).
  destruct (Nat.even n).
  - rewrite !nth_repeat_lt by lia. lra.
  - apply nth_repeat_lt; lia.
Qed.

Lemma Forall_eq_repeat (v : R) (l : list R) :
  Forall (eq v) l -> l = repeat v (List.length l).
Proof.
  induction 1 as [ | x t Hx _ IH ]; simpl; [ reflexivity | ].
  now rewrite <- Hx, <- IH.
Qed.

Lemma all_equal_ravel (v : R) (sb : array2d) :
  all_equal v sb -> Forall (eq v) (ravel sb).
Proof.
  unfold all_equal, ravel.
  induction 1 as [ | r t Hr _ IH ]; simpl; [ constructor | ].
  apply Forall_app; split; assumption.
Qed.

Lemma estimate_sigma_repeat (v : R) (n : nat) :
  (0 < n)%nat -> estimate_sigma (repeat v n) = Rabs v / 0.6745.
Proof.
  intros Hn. unfold estimate_sigma, np_abs.
  rewrite map_repeat, np_median_repeat by exact Hn. reflexivity.
Qed.

Lemma estimate_sigma_zeros (l : list R) : Forall (eq 0) l -> estimate_sigma l = 0.
Proof.
  intros H. rewrite (Forall_eq_repeat _ _ H).
  destruct (List.length l) as [ | n ] eqn:E.
  - simpl. unfold estimate_sigma, np_median. simpl. lra.
  - rewrite estimate_sigma_repeat by lia. rewrite Rabs_R0. lra.
Qed.

(** ** The shrinkage rules *)

Lemma np_sign_mult_abs (x : R) : np_sign x * Rabs x = x.
Proof.
  unfold np_sign.
  destruct (Rlt_dec x 0) as [Hneg | Hnn].
  - rewrite Rabs_left by exact Hneg. lra.
  - destruct (Rlt_dec 0 x) as [Hpos | Hnp].
    + rewrite Rabs_pos_eq by lra. lra.
    + assert (x = 0) by lra. subst x. rewrite Rabs_R0. lra.
Qed.

Lemma np_sign_zero_iff (x : R) : np_sign x = 0 <-> x = 0.
Proof.
  unfold np_sign.
  destruct (Rlt_dec x 0); [ lra | ].
  destruct (Rlt_dec 0 x); lra.
Qed.

Lemma soft_zero_iff (value x : R) :
  soft value x = 0 <-> x = 0 \/ Rabs x <= value.
Proof.
  unfold soft. split.
  - intros H. apply Rmult_integral in H. destruct H as [H | H].
    + left. apply np_sign_zero_iff, H.
    + right. pose proof (Rmax_l (Rabs x - value) 0). lra.
  - intros [H | H].
    + apply (proj2 (np_sign_zero_iff x)) in H. rewrite H. lra.
    + rewrite Rmax_right by lra. lra.
Qed.

Lemma soft_zero_mono (v1 v2 x : R) :
  v1 <= v2 -> soft v1 x = 0 -> soft v2 x = 0.
Proof.
  intros Hv H. apply soft_zero_iff. apply soft_zero_iff in H.
  destruct H as [H | H]; [ left; exact H | right; lra ].
Qed.

(** In the model; the library's rule agrees for [x <> 0] and gives NaN at
    [x = 0] (lemma [pywt_soft_nan]). *)
Lemma soft_0 (x : R) : soft 0 x = x.
Proof.
  unfold soft. rewrite Rminus_0_r.
  rewrite Rmax_left by apply Rabs_pos.
  apply np_sign_mult_abs.
Qed.

Lemma Rabs_zero_inv (x : R) : Rabs x = 0 -> x = 0.
Proof.
  intros H. destruct (Req_dec_T x 0) as [E | N]; [ exact E | ].
  exfalso. apply (Rabs_no_R0 x N H).
Qed.

(** The model's soft rule is the library's wherever the library returns a
    number. *)
Lemma pywt_soft_number (value x : R) :
  x <> 0 \/ 0 < value -> pywt_soft value x = Some (soft value x).
Proof.
  intros H. unfold pywt_soft, soft.
  destruct (Req_dec_T x 0) as [-> | Hx].
  - destruct H as [H | H]; [ contradiction | ].
    destruct (Rlt_dec 0 value); [ | contradiction ].
    rewrite (proj2 (np_sign_zero_iff 0) eq_refl). f_equal. ring.
  - f_equal.
    assert (Pa : 0 < Rabs x) by now apply Rabs_pos_lt.
    rewrite <- (np_sign_mult_abs x) at 1.
    destruct (Rle_dec value (Rabs x)) as [Hle | Hgt].
    + assert (Q : value / Rabs x * Rabs x = value) by (field; lra).
      assert (0 <= 1 - value / Rabs x) by nra.
      rewrite (Rmax_left (1 - value / Rabs x)) by assumption.
      rewrite (Rmax_left (Rabs x - value)) by lra.
      field. lra.
    + assert (Q : value / Rabs x * Rabs x = value) by (field; lra).
      assert (1 - value / Rabs x <= 0) by nra.
      rewrite (Rmax_right (1 - value / Rabs x)) by assumption.
      rewrite (Rmax_right (Rabs x - value)) by lra.
      ring.
Qed.

(** At a zero sample a threshold that is not positive gives NaN. *)
Lemma pywt_soft_nan (value : R) : value <= 0 -> pywt_soft value 0 = None.
Proof.
  intros H. unfold pywt_soft.
  destruct (Req_dec_T 0 0) as [_ | N]; [ | contradiction ].
  destruct (Rlt_dec 0 value); [ lra | reflexivity ].
Qed.

Lemma pywt_soft_threshold_number (data : array2d) (value : R) :
  Forall (Forall (fun x => x <> 0 \/ 0 < value)) data ->
  pywt_soft_threshold data value
  = map (map Some) (map (map (soft value)) data).
Proof.
  unfold pywt_soft_threshold.
  induction 1 as [ | r t Hr _ IH ]; simpl; [ reflexivity | ].
  rewrite IH. f_equal.
  induction Hr as [ | x u Hx _ IHr ]; simpl; [ reflexivity | ].
  now rewrite IHr, pywt_soft_number.
Qed.

Lemma pywt_soft_threshold_zeros (data : array2d) (value : R) :
  value <= 0 ->
  all_equal 0 data ->
  pywt_soft_threshold data value = map (map (fun _ => None)) data.
Proof.
  unfold pywt_soft_threshold, all_equal. intros Hv.
  induction 1 as [ | r t Hr _ IH ]; simpl; [ reflexivity | ].
  rewrite IH. f_equal.
  induction Hr as [ | x u Hx _ IHr ]; simpl; [ reflexivity | ].
  subst x. now rewrite IHr, pywt_soft_nan.
Qed.

Section Rules.

Context {pywt : PyWavelets}.

Lemma hard_zero_mono (v1 v2 x : R) :
  v1 <= v2 -> hard v1 x = 0 -> hard v2 x = 0.
Proof.
  unfold hard. intros Hv H.
  destruct (Rlt_dec (Rabs x) v2) as [ | Hge2 ]; [ reflexivity | ].
  destruct (Rlt_dec (Rabs x) v1) as [ | Hge1 ]; [ lra | ].
  destruct (Req_dec_T (Rabs x) v1) as [E1 | N1];
    destruct (Req_dec_T (Rabs x) v2) as [E2 | N2];
    destruct hard_keeps_tie; try reflexivity; try exact H; lra.
Qed.

Lemma hard_0 (x : R) : hard 0 x = x.
Proof.
  unfold hard.
  destruct (Rlt_dec (Rabs x) 0) as [Hlt | _].
  - pose proof (Rabs_pos x). lra.
  - destruct (Req_dec_T (Rabs x) 0) as [E | _]; [ | reflexivity ].
    apply Rabs_zero_inv in E. subst x. destruct hard_keeps_tie; reflexivity.
Qed.

Lemma hard_below (value x : R) : Rabs x < value -> hard value x = 0.
Proof.
  intros H. unfold hard.
  destruct (Rlt_dec (Rabs x) value); [ reflexivity | contradiction ].
Qed.

Lemma shrink_rule_soft : shrink_rule "soft" = Ok soft.
Proof. reflexivity. Qed.

Lemma shrink_rule_hard : shrink_rule "hard" = Ok hard.
Proof. reflexivity. Qed.

(** The two rules of the specification lose no zero as the threshold grows. *)
Lemma spec_rule_zero_mono (mode : string) (f : R -> R -> R) :
  mode = "soft"%string \/ mode = "hard"%string ->
  shrink_rule mode = Ok f ->
  forall v1 v2 x, v1 <= v2 -> f v1 x = 0 -> f v2 x = 0.
Proof.
  intros [-> | ->] E; inversion E; subst f; intros v1 v2 x.
  - apply soft_zero_mono.
  - apply hard_zero_mono.
Qed.

Lemma spec_rule_at_0 (mode : string) (f : R -> R -> R) :
  mode = "soft"%string \/ mode = "hard"%string ->
  shrink_rule mode = Ok f ->
  forall x, f 0 x = x.
Proof.
  intros [-> | ->] E; inversion E; subst f; intros x.
  - apply soft_0.
  - apply hard_0.
Qed.

(** ** The thresholding loop *)

Lemma pywt_threshold_rule (mode : string) (f : R -> R -> R)
    (data : array2d) (value : R) :
  shrink_rule mode = Ok f ->
  pywt_threshold data value mode = Ok (shrink_with f value data).
Proof. intros E. unfold pywt_threshold. rewrite E. reflexivity. Qed.

Lemma pywt_threshold_Raise (mode : string) (e : exn)
    (data : array2d) (value : R) :
  shrink_rule mode = Raise e -> pywt_threshold data value mode = Raise e.
Proof. intros E. unfold pywt_threshold. rewrite E. reflexivity. Qed.

Lemma pywt_threshold_inv (mode : string) (data data' : array2d) (value : R) :
  pywt_threshold data value mode = Ok data' ->
  exists f, shrink_rule mode = Ok f /\ data' = shrink_with f value data.
Proof.
  unfold pywt_threshold. intros H. bind_inv H.
  exists a. split; [ assumption | ]. now inversion H.
Qed.

Lemma adaptive_level_rule (mode : string) (f : R -> R -> R)
    (threshold_factor : R) (i : nat) (ld : detail_level) :
  shrink_rule mode = Ok f ->
  adaptive_level mode threshold_factor i ld
  = Ok (spec_adaptive_level f threshold_factor i ld).
Proof.
  intros E. destruct ld as [[cH cV] cD].
  unfold adaptive_level, spec_adaptive_level. simpl Nat.eqb. cbv iota.
  rewrite !(pywt_threshold_rule _ _ _ _ E). simpl.
  unfold spec_adaptive_threshold, estimate_sigma, orientation_multiplier.
  assert (A : forall a t p m : R, a * (t * p) * m = a * t * p * m)
    by (intros; ring).
  rewrite !A. reflexivity.
Qed.

Lemma universal_level_rule (mode : string) (f : R -> R -> R)
    (sigma threshold_factor : R) (N : nat) (ld : detail_level) :
  shrink_rule mode = Ok f ->
  universal_level mode sigma threshold_factor N ld
  = Ok (let '(cH, cV, cD) := ld in
        let g := shrink_with f (spec_universal_threshold sigma threshold_factor N) in
        (g cH, g cV, g cD)).
Proof.
  intros E. destruct ld as [[cH cV] cD].
  unfold universal_level. rewrite !(pywt_threshold_rule _ _ _ _ E).
  reflexivity.
Qed.

Lemma threshold_levels_adaptive (mode : string) (f : R -> R -> R)
    (sigma threshold_factor : R) (N : nat) (lds : list detail_level) :
  shrink_rule mode = Ok f ->
  forall i,
    threshold_levels "adaptive" mode sigma threshold_factor N i lds
    = Ok (spec_adaptive_levels f threshold_factor i lds).
Proof.
  intros E. induction lds as [ | ld rest IH ]; intros i; simpl.
  - reflexivity.
  - unfold threshold_level. simpl String.eqb. cbv iota.
    rewrite (adaptive_level_rule _ _ _ _ _ E). simpl.
    rewrite IH. reflexivity.
Qed.

Lemma threshold_levels_universal (method mode : string) (f : R -> R -> R)
    (sigma threshold_factor : R) (N : nat) (lds : list detail_level) :
  (method =? "adaptive")%string = false ->
  shrink_rule mode = Ok f ->
  forall i,
    threshold_levels method mode sigma threshold_factor N i lds
    = Ok (details
            (map_details
               (shrink_with f (spec_universal_threshold sigma threshold_factor N))
               (mkCoeffs [] lds))).
Proof.
  intros Hm E. induction lds as [ | ld rest IH ]; intros i; simpl.
  - reflexivity.
  - unfold threshold_level. rewrite Hm.
    assert (U : (if (method =? "bayes")%string
                 then universal_level mode sigma threshold_factor N ld
                 else universal_level mode sigma threshold_factor N ld)
                = universal_level mode sigma threshold_factor N ld)
      by (destruct (method =? "bayes")%string; reflexivity).
    rewrite U, (universal_level_rule _ _ _ _ _ _ E). simpl.
    rewrite IH. simpl. destruct ld as [[cH cV] cD]. reflexivity.
Qed.

Lemma spec_adaptive_levels_nth (f : R -> R -> R) (threshold_factor : R)
    (lds : list detail_level) :
  forall i k,
    nth_error (spec_adaptive_levels f threshold_factor i lds) k
    = option_map (spec_adaptive_level f threshold_factor (i + k))
                 (nth_error lds k).
Proof.
  induction lds as [ | ld rest IH ]; intros i k; simpl.
  - destruct k; reflexivity.
  - destruct k as [ | k ]; simpl.
    + now rewrite Nat.add_0_r.
    + rewrite IH. now rewrite Nat.add_succ_r.
Qed.

End Rules.

(** ** The threshold policy of [wavelet_denoise] *)

Section Policy.

Context {pywt : PyWavelets}.

(** Index 2 of a level, the one the code gives the factor 2.0, is the
    diagonal subband. *)
Lemma orientation_multiplier_index (o : orientation) :
  orientation_multiplier o
  = if (orientation_index o =? 2)%nat then 2.0 else 1.5.
Proof. destruct o; reflexivity. Qed.

(** C1.  With method 'adaptive' and a mode whose elementwise rule is [f],
    thresholding returns, and the detail subband [sb] at level [i]
    (1 = coarsest) and orientation [o] is replaced by [sb] shrunk with the
    threshold local_sigma × threshold_factor × 0.5^(i-1) × m, where
    local_sigma = median(|sb|) / 0.6745 is taken from [sb] alone and m is 2.0
    for DIAGONAL and 1.5 for HORIZONTAL and VERTICAL. *)
Theorem adaptive_threshold_per_subband :
  forall (mode : string) (f : R -> R -> R) (sigma threshold_factor : R)
         (N : nat) (c : coeffs),
    shrink_rule mode = Ok f ->
    exists c',
      threshold_coeffs "adaptive" mode sigma threshold_factor N c = Ok c' /\
      forall i o sb,
        subband c i o = Some sb ->
        subband c' i o
        = Some (shrink_with f
                  (np_median (np_abs (ravel sb)) / 0.6745
                   * threshold_factor * 0.5 ^ (i - 1)
                   * match o with DIAGONAL => 2.0 | _ => 1.5 end)
                  sb).
Proof.
  intros mode f sigma tf N c E.
  unfold threshold_coeffs.
  rewrite (threshold_levels_adaptive _ _ _ _ _ _ E). simpl.
  eexists; split; [ reflexivity | ].
  intros [ | k ] o sb; simpl; [ discriminate | ].
  rewrite spec_adaptive_levels_nth. simpl Nat.add.
  destruct (nth_error (details c) k) as [[[cH cV] cD] | ]; simpl;
    [ | discriminate ].
  intros S; inversion S; subst sb; clear S.
  unfold spec_adaptive_threshold, estimate_sigma, orientation_multiplier.
  simpl Nat.sub. rewrite Nat.sub_0_r.
  destruct o; reflexivity.
Qed.

(** C4.  Whatever the method, mode, sigma and threshold_factor, the
    coefficient list handed to the reconstruction has the approximation of
    the decomposition, unchanged, and as many detail levels. *)
Theorem approx_passes_unchanged :
  forall (method mode : string) (sigma threshold_factor : R) (N : nat)
         (c c' : coeffs),
    threshold_coeffs method mode sigma threshold_factor N c = Ok c' ->
    approx c' = approx c /\
    List.length (details c') = List.length (details c).
Proof.
  intros method mode sigma tf N c c' H.
  unfold threshold_coeffs in H. bind_inv H.
  inversion H; subst c'; clear H. simpl. split; [ reflexivity | ].
  revert a E. generalize 1%nat.
  induction (details c) as [ | ld rest IH ]; intros i ts E; simpl in E.
  - now inversion E.
  - bind_inv E. bind_inv E. inversion E; subst ts. simpl.
    f_equal. eapply IH; eassumption.
Qed.

Lemma threshold_level_bayes_sure (mode : string) (sigma tf : R) (N i : nat)
    (ld : detail_level) :
  threshold_level "bayes" mode sigma tf N i ld
  = threshold_level "sure" mode sigma tf N i ld.
Proof. reflexivity. Qed.

Lemma threshold_levels_bayes_sure (mode : string) (sigma tf : R) (N : nat)
    (lds : list detail_level) :
  forall i,
    threshold_levels "bayes" mode sigma tf N i lds
    = threshold_levels "sure" mode sigma tf N i lds.
Proof.
  induction lds as [ | ld rest IH ]; intros i; simpl; [ reflexivity | ].
  now rewrite threshold_level_bayes_sure, IH.
Qed.

Lemma reconstruction_bayes_sure (image : array2d) (wavelet : string)
    (sigma : option R) (mode : string) (levels : Z) (tf : R) :
  reconstruction image wavelet sigma mode "bayes" levels tf
  = reconstruction image wavelet sigma mode "sure" levels tf.
Proof.
  unfold reconstruction, threshold_coeffs.
  destruct (match sigma with
            | None => global_sigma image wavelet
            | Some s => Ok s
            end) as [s | e]; simpl; [ | reflexivity ].
  destruct (wavedec2 image wavelet levels) as [c | e]; simpl;
    [ | reflexivity ].
  now rewrite threshold_levels_bayes_sure.
Qed.

Lemma reconstruction_universal (image : array2d) (wavelet : string)
    (sigma0 : option R) (mode method : string) (levels : Z) (tf : R)
    (f : R -> R -> R) :
  (method =? "adaptive")%string = false ->
  shrink_rule mode = Ok f ->
  reconstruction image wavelet sigma0 mode method levels tf
  = (sigma <- match sigma0 with
              | None => global_sigma image wavelet
              | Some s => Ok s
              end ;;
     c <- wavedec2 image wavelet levels ;;
     waverec2
       (map_details
          (shrink_with f (spec_universal_threshold sigma tf (size image))) c)
       wavelet).
Proof.
  intros Hm E. unfold reconstruction, threshold_coeffs.
  destruct (match sigma0 with
            | None => global_sigma image wavelet
            | Some s => Ok s
            end) as [s | e]; simpl; [ | reflexivity ].
  destruct (wavedec2 image wavelet levels) as [c | e]; simpl;
    [ | reflexivity ].
  rewrite (threshold_levels_universal method mode f); try assumption.
  reflexivity.
Qed.

(** C5.  Methods 'bayes' and 'sure' return the same denoised and noise
    arrays; for a mode with elementwise rule [f], either method shrinks all
    three subbands of every level of the decomposition with the one
    threshold sigma × threshold_factor × sqrt(2 × ln(N)), [N] the number of
    samples of the image and [sigma] the one global value (given, or
    estimated before the decomposition). *)
Theorem bayes_and_sure_identical :
  forall (image : array2d) (wavelet : string) (sigma0 : option R)
         (mode : string) (levels : Z) (threshold_factor : R)
         (f : R -> R -> R),
    shrink_rule mode = Ok f ->
    (wavelet_denoise image wavelet sigma0 mode "bayes" levels threshold_factor
     = wavelet_denoise image wavelet sigma0 mode "sure" levels threshold_factor)
    /\
    (process_fits_file image wavelet sigma0 mode "bayes" levels threshold_factor
     = process_fits_file image wavelet sigma0 mode "sure" levels threshold_factor)
    /\
    forall method,
      method = "bayes"%string \/ method = "sure"%string ->
      wavelet_denoise image wavelet sigma0 mode method levels threshold_factor
      = (sigma <- match sigma0 with
                  | None => global_sigma image wavelet
                  | Some s => Ok s
                  end ;;
         c <- wavedec2 image wavelet levels ;;
         r <- waverec2
                (map_details
                   (shrink_with f
                      (sigma * threshold_factor
                       * sqrt (2 * ln (INR (size image)))))
                   c)
                wavelet ;;
         Ok (fit_shape image r)).
Proof.
  intros image wavelet sigma0 mode levels tf f E.
  assert (W : wavelet_denoise image wavelet sigma0 mode "bayes" levels tf
              = wavelet_denoise image wavelet sigma0 mode "sure" levels tf)
    by (unfold wavelet_denoise; now rewrite reconstruction_bayes_sure).
  split; [ exact W | split ].
  - unfold process_fits_file. now rewrite W.
  - intros method Hm. unfold wavelet_denoise.
    rewrite (reconstruction_universal _ _ _ _ method _ _ f);
      [ | destruct Hm as [-> | ->]; reflexivity | exact E ].
    unfold spec_universal_threshold.
    destruct (match sigma0 with
              | None => global_sigma image wavelet
              | Some s => Ok s
              end) as [s | e]; simpl; [ | reflexivity ].
    destruct (wavedec2 image wavelet levels) as [c | e]; reflexivity.
Qed.

Lemma threshold_levels_adaptive_sigma (mode : string) (s1 s2 tf : R) (N : nat)
    (lds : list detail_level) :
  forall i,
    threshold_levels "adaptive" mode s1 tf N i lds
    = threshold_levels "adaptive" mode s2 tf N i lds.
Proof.
  induction lds as [ | ld rest IH ]; intros i; simpl; [ reflexivity | ].
  now rewrite IH.
Qed.

Lemma reconstruction_adaptive_sigma (image : array2d) (wavelet : string)
    (s : R) (mode : string) (levels : Z) (tf : R) (c1 : coeffs) :
  wavedec2 image wavelet 1 = Ok c1 ->
  reconstruction image wavelet None mode "adaptive" levels tf
  = reconstruction image wavelet (Some s) mode "adaptive" levels tf.
Proof.
  intros H1. unfold reconstruction, global_sigma, threshold_coeffs.
  rewrite H1. simpl.
  destruct (wavedec2 image wavelet levels) as [c | e]; simpl;
    [ | reflexivity ].
  now rewrite (threshold_levels_adaptive_sigma mode _ s).
Qed.

(** C10.  With method 'adaptive' the sigma option has no effect: when the
    one-level decomposition that the sigma estimate needs is accepted by the
    library, any two runs differing only in sigma (given or absent) return
    the same denoised array and the same noise array. *)
Theorem adaptive_ignores_sigma :
  forall (image : array2d) (wavelet : string) (sigma1 sigma2 : option R)
         (mode : string) (levels : Z) (threshold_factor : R) (c1 : coeffs),
    wavedec2 image wavelet 1 = Ok c1 ->
    wavelet_denoise image wavelet sigma1 mode "adaptive" levels threshold_factor
    = wavelet_denoise image wavelet sigma2 mode "adaptive" levels
        threshold_factor
    /\
    process_fits_file image wavelet sigma1 mode "adaptive" levels
      threshold_factor
    = process_fits_file image wavelet sigma2 mode "adaptive" levels
        threshold_factor.
Proof.
  intros image wavelet sigma1 sigma2 mode levels tf c1 H1.
  assert (R0 : forall sg,
             reconstruction image wavelet sg mode "adaptive" levels tf
             = reconstruction image wavelet (Some 0) mode "adaptive" levels tf).
  { intros [s | ].
    - unfold reconstruction, threshold_coeffs. simpl.
      destruct (wavedec2 image wavelet levels) as [c | e]; simpl;
        [ | reflexivity ].
      now rewrite (threshold_levels_adaptive_sigma mode s 0).
    - eapply reconstruction_adaptive_sigma; eassumption. }
  assert (W : wavelet_denoise image wavelet sigma1 mode "adaptive" levels tf
              = wavelet_denoise image wavelet sigma2 mode "adaptive" levels tf)
    by (unfold wavelet_denoise; now rewrite (R0 sigma1), (R0 sigma2)).
  split; [ exact W | ].
  unfold process_fits_file. now rewrite W.
Qed.

End Policy.

(** ** Arrays: shapes, crops and elementwise operations *)

Lemma rows_same_length_spec (a b : array2d) :
  List.length a = List.length b ->
  rows_same_length a b = true ->
  same_shape a b.
Proof.
  unfold rows_same_length, same_shape. revert b.
  induction a as [ | r a IH ]; intros [ | s b ] L H; simpl in *;
    try discriminate; [ constructor | ].
  apply andb_prop in H. destruct H as [H1 H2].
  constructor; [ now apply Nat.eqb_eq | apply IH; [ lia | exact H2 ] ].
Qed.

Lemma same_shape_guard (a b : array2d) :
  same_shape a b ->
  ((List.length a =? List.length b)%nat && rows_same_length a b)%bool = true.
Proof.
  unfold rows_same_length, same_shape.
  induction 1 as [ | r s a b Hrs _ IH ]; simpl; [ reflexivity | ].
  apply andb_prop in IH. destruct IH as [IH1 IH2].
  rewrite IH1, IH2, Hrs, Nat.eqb_refl. reflexivity.
Qed.

Lemma np_binop_inv (f : R -> R -> R) (a b n : array2d) :
  np_binop f a b = Ok n ->
  same_shape a b /\ n = zip_with (zip_with f) a b.
Proof.
  unfold np_binop.
  destruct ((List.length a =? List.length b)%nat && rows_same_length a b)%bool
    eqn:G; intros H; [ | discriminate ].
  apply andb_prop in G. destruct G as [G1 G2].
  split; [ | now inversion H ].
  apply rows_same_length_spec; [ now apply Nat.eqb_eq | exact G2 ].
Qed.

Lemma np_binop_same_shape (f : R -> R -> R) (a b : array2d) :
  same_shape a b -> np_binop f a b = Ok (zip_with (zip_with f) a b).
Proof.
  intros S. unfold np_binop. now rewrite (same_shape_guard _ _ S).
Qed.

Lemma zip_with_length {A B C : Type} (f : A -> B -> C) (l1 : list A) :
  forall l2, List.length l1 = List.length l2 ->
             List.length (zip_with f l1 l2) = List.length l1.
Proof.
  induction l1 as [ | x t IH ]; intros [ | y u ] L; simpl in *;
    try discriminate; [ reflexivity | ].
  f_equal. apply IH. lia.
Qed.

Lemma row_sub_add (o : list R) :
  forall d, List.length o = List.length d ->
            zip_with Rplus d (zip_with Rminus o d) = o.
Proof.
  induction o as [ | x t IH ]; intros [ | y u ] L; simpl in *;
    try discriminate; [ reflexivity | ].
  f_equal; [ ring | apply IH; lia ].
Qed.

Lemma array_sub_add (o d : array2d) :
  same_shape o d ->
  zip_with (zip_with Rplus) d (zip_with (zip_with Rminus) o d) = o.
Proof.
  induction 1 as [ | r s o d Hrs _ IH ]; simpl; [ reflexivity | ].
  now rewrite row_sub_add, IH.
Qed.

Lemma same_shape_zip_r (f : R -> R -> R) (o d : array2d) :
  same_shape o d -> same_shape d (zip_with (zip_with f) o d).
Proof.
  induction 1 as [ | r s o d Hrs _ IH ]; simpl; constructor.
  - now rewrite zip_with_length.
  - exact IH.
Qed.

Lemma same_shape_zip_l (f : R -> R -> R) (o d : array2d) :
  same_shape o d -> same_shape o (zip_with (zip_with f) o d).
Proof.
  induction 1 as [ | r s o d Hrs _ IH ]; simpl; constructor.
  - now rewrite zip_with_length.
  - exact IH.
Qed.

Lemma same_shape_shape (a b : array2d) : same_shape a b -> shape a = shape b.
Proof.
  intros S. unfold shape. rewrite (Forall2_length S).
  destruct S; simpl; congruence.
Qed.

Lemma same_shape_rectangular (w : nat) (a b : array2d) :
  same_shape a b -> rectangular w a -> rectangular w b.
Proof.
  unfold rectangular.
  induction 1 as [ | r s a b Hrs _ IH ]; intros Ra; [ constructor | ].
  inversion Ra; subst. constructor; [ congruence | now apply IH ].
Qed.

Lemma rectangular_same_shape (w : nat) (a : array2d) :
  rectangular w a ->
  forall b, rectangular w b -> List.length a = List.length b -> same_shape a b.
Proof.
  unfold rectangular, same_shape.
  induction 1 as [ | r a Hr _ IH ]; intros [ | s b ] Rb L; simpl in L;
    try discriminate; constructor.
  - inversion Rb; subst. congruence.
  - inversion Rb; subst. apply IH; [ assumption | lia ].
Qed.

Lemma row_sub_sample (o : list R) :
  forall d j x,
    List.length o = List.length d ->
    nth_error o j = Some x ->
    exists y, nth_error d j = Some y /\
              nth_error (zip_with Rminus o d) j = Some (x - y).
Proof.
  induction o as [ | a t IH ]; intros [ | b u ] j x L Hx; simpl in *;
    try discriminate; try (destruct j; discriminate).
  destruct j as [ | j ]; simpl in *.
  - inversion Hx; subst. exists b. split; reflexivity.
  - apply IH; [ lia | exact Hx ].
Qed.

Lemma array_sub_sample (o d : array2d) :
  same_shape o d ->
  forall i j x,
    sample o i j = Some x ->
    exists y, sample d i j = Some y /\
              sample (zip_with (zip_with Rminus) o d) i j = Some (x - y).
Proof.
  unfold sample.
  induction 1 as [ | r s o d Hrs _ IH ]; intros i j x Hx.
  - destruct i; discriminate.
  - destruct i as [ | i ]; simpl in *.
    + now apply row_sub_sample.
    + apply IH, Hx.
Qed.

Lemma crop_length (h w : nat) (a : array2d) :
  (h <= List.length a)%nat -> List.length (crop h w a) = h.
Proof.
  intros L. unfold crop. rewrite length_map. now apply firstn_length_le.
Qed.

Lemma Forall_firstn {A : Type} (P : A -> Prop) (n : nat) (l : list A) :
  Forall P l -> Forall P (firstn n l).
Proof.
  intros H. revert n. induction H as [ | x t Hx _ IH ]; intros [ | n ]; simpl;
    constructor; auto.
Qed.

Lemma crop_rectangular (h w w' : nat) (a : array2d) :
  rectangular w' a -> (w <= w')%nat -> rectangular w (crop h w a).
Proof.
  unfold rectangular, crop. intros Ra Hw.
  apply Forall_map. apply Forall_firstn.
  eapply Forall_impl; [ | exact Ra ].
  intros r Hr. simpl in *. apply firstn_length_le. lia.
Qed.

Lemma crop_all (a : array2d) :
  rectangular (snd (shape a)) a ->
  crop (fst (shape a)) (snd (shape a)) a = a.
Proof.
  unfold crop, shape, rectangular. simpl. intros Ra.
  rewrite firstn_all.
  generalize dependent (match a with [] => 0%nat | r :: _ => List.length r end).
  intros w Ra. induction Ra as [ | r t Hr _ IH ]; simpl; [ reflexivity | ].
  rewrite IH. f_equal. apply firstn_all2. lia.
Qed.

Lemma crop_sample (h w : nat) (a : array2d) (i j : nat) :
  (i < h)%nat -> (j < w)%nat -> sample (crop h w a) i j = sample a i j.
Proof.
  intros Hi Hj. unfold sample, crop.
  rewrite nth_error_map, nth_error_firstn.
  destruct (Nat.ltb_spec i h) as [ _ | ]; [ | lia ].
  destruct (nth_error a i) as [row | ]; simpl; [ | reflexivity ].
  rewrite nth_error_firstn.
  destruct (Nat.ltb_spec j w) as [ _ | ]; [ reflexivity | lia ].
Qed.

Lemma rectangular_shape (h w : nat) (a : array2d) :
  List.length a = h -> rectangular w a -> (0 < h)%nat -> shape a = (h, w).
Proof.
  unfold shape, rectangular. intros L Ra Hh.
  destruct Ra as [ | r t Hr _ ]; simpl in *; [ lia | congruence ].
Qed.

Lemma shape_eqb_eq (s1 s2 : nat * nat) : shape_eqb s1 s2 = true <-> s1 = s2.
Proof.
  unfold shape_eqb. destruct s1 as [a b], s2 as [c d]. simpl.
  rewrite andb_true_iff, !Nat.eqb_eq. split.
  - intros [-> ->]. reflexivity.
  - intros E. inversion E. split; reflexivity.
Qed.

(** Whether or not the test of line 99 fires, the returned array is the
    top-left part of the reconstruction. *)
Lemma fit_shape_is_crop (image r : array2d) (h w : nat) :
  shape image = (h, w) ->
  rectangular (snd (shape r)) r ->
  fit_shape image r = crop h w r.
Proof.
  intros Si Rr. unfold fit_shape. rewrite Si. simpl.
  destruct (shape_eqb (shape r) (h, w)) eqn:T; simpl; [ | reflexivity ].
  apply shape_eqb_eq in T.
  pose proof (crop_all r Rr) as C. rewrite T in C. simpl in C.
  now rewrite C.
Qed.

Lemma crop_shape (image r : array2d) (h w : nat) :
  shape image = (h, w) ->
  rectangular (snd (shape r)) r ->
  (h <= fst (shape r))%nat -> (w <= snd (shape r))%nat ->
  shape (crop h w r) = (h, w).
Proof.
  intros Si Rr Hh Hw.
  destruct h as [ | h ].
  - destruct image; [ | discriminate ]. inversion Si; subst. reflexivity.
  - apply rectangular_shape.
    + now apply crop_length.
    + eapply crop_rectangular; eassumption.
    + lia.
Qed.

(** ** The two returned arrays *)

Section Outputs.

Context {pywt : PyWavelets}.

Lemma process_fits_file_inv (image : array2d) (wavelet : string)
    (sigma : option R) (mode method : string) (levels : Z) (tf : R)
    (d n : array2d) :
  process_fits_file image wavelet sigma mode method levels tf = Ok (d, n) ->
  wavelet_denoise image wavelet sigma mode method levels tf = Ok d /\
  extract_noise image d = Ok n.
Proof.
  unfold process_fits_file. intros H.
  bind_inv H. bind_inv H. inversion H; subst. split; assumption.
Qed.

(** On arrays of numbers [extract_noise] is the elementwise difference and
    nothing else, and adding the denoised array back gives the original,
    sample for sample. *)
Lemma extract_noise_residual (original denoised noise : array2d) :
  extract_noise original denoised = Ok noise ->
  same_shape original denoised /\
  noise = zip_with (zip_with Rminus) original denoised /\
  np_add denoised noise = Ok original /\
  forall i j x,
    sample original i j = Some x ->
    exists y, sample denoised i j = Some y /\
              sample noise i j = Some (x - y).
Proof.
  intros Hn. unfold extract_noise, np_subtract in Hn.
  apply np_binop_inv in Hn. destruct Hn as [S ->].
  split; [ exact S | split; [ reflexivity | split ] ].
  - unfold np_add.
    rewrite np_binop_same_shape by now apply same_shape_zip_r.
    now rewrite array_sub_add.
  - intros i j x Hx. now apply array_sub_sample.
Qed.

(** C3.  For an image of shape (H, W), whatever the configuration: when the
    inverse transform returns an array with at least H rows and W columns,
    the call returns a denoised and a noise array of shape exactly (H, W),
    and the denoised array is the top-left part r[0:H, 0:W] of the
    reconstruction [r], sample for sample. *)
Theorem output_shape_is_input_shape :
  forall (image : array2d) (wavelet : string) (sigma : option R)
         (mode method : string) (levels : Z) (threshold_factor : R)
         (H W : nat) (r : array2d),
    shape image = (H, W) ->
    rectangular W image ->
    reconstruction image wavelet sigma mode method levels threshold_factor
    = Ok r ->
    rectangular (snd (shape r)) r ->
    (H <= fst (shape r))%nat ->
    (W <= snd (shape r))%nat ->
    exists denoised noise,
      process_fits_file image wavelet sigma mode method levels threshold_factor
      = Ok (denoised, noise) /\
      wavelet_denoise image wavelet sigma mode method levels threshold_factor
      = Ok denoised /\
      shape denoised = (H, W) /\ rectangular W denoised /\
      shape noise = (H, W) /\ rectangular W noise /\
      denoised = crop H W r /\
      forall i j, (i < H)%nat -> (j < W)%nat ->
                  sample denoised i j = sample r i j.
Proof.
  intros image wavelet sigma mode method levels tf H W r Si Ri Hr Rr HH HW.
  assert (Hd : wavelet_denoise image wavelet sigma mode method levels tf
               = Ok (crop H W r)).
  { unfold wavelet_denoise. rewrite Hr. simpl.
    now rewrite (fit_shape_is_crop image r H W Si Rr). }
  assert (Sd : shape (crop H W r) = (H, W)) by now apply (crop_shape image).
  assert (Rd : rectangular W (crop H W r))
    by (eapply crop_rectangular; eassumption).
  assert (S : same_shape image (crop H W r)).
  { apply (rectangular_same_shape W); try assumption.
    rewrite crop_length by exact HH.
    change (fst (shape image) = H). now rewrite Si. }
  exists (crop H W r), (zip_with (zip_with Rminus) image (crop H W r)).
  repeat split; try assumption.
  - unfold process_fits_file. rewrite Hd. simpl.
    unfold extract_noise, np_subtract.
    now rewrite (np_binop_same_shape _ _ _ S).
  - rewrite <- (same_shape_shape _ _ (same_shape_zip_l Rminus _ _ S)).
    exact Si.
  - eapply same_shape_rectangular; [ | exact Ri ].
    now apply same_shape_zip_l.
  - intros i j Hi Hj. now apply crop_sample.
Qed.

End Outputs.

(** ** Monotonic suppression *)

Lemma is_zero_true (x : R) : is_zero x = true <-> x = 0.
Proof.
  unfold is_zero. destruct (Req_dec_T x 0); split; intros H;
    try reflexivity; try assumption; try discriminate; contradiction.
Qed.

Lemma count_zeros_mono (l1 l2 : list R) :
  Forall2 (fun a b => a = 0 -> b = 0) l1 l2 ->
  (count_zeros l1 <= count_zeros l2)%nat.
Proof.
  unfold count_zeros.
  induction 1 as [ | a b l1 l2 Hab _ IH ]; simpl; [ lia | ].
  destruct (is_zero a) eqn:Za.
  - apply is_zero_true in Za. apply Hab in Za.
    apply is_zero_true in Za. rewrite Za. simpl. lia.
  - destruct (is_zero b); simpl; lia.
Qed.

Lemma zeroed_by_shrinkage_mono (l1 l2 : list R) :
  Forall2 (fun a b => a = 0 -> b = 0) l1 l2 ->
  forall before,
    (zeroed_by_shrinkage before l1 <= zeroed_by_shrinkage before l2)%nat.
Proof.
  unfold zeroed_by_shrinkage.
  induction 1 as [ | a b l1 l2 Hab _ IH ]; intros [ | x before ]; simpl;
    try lia.
  specialize (IH before).
  destruct (is_zero x); simpl; [ exact IH | ].
  destruct (is_zero a) eqn:Za.
  - apply is_zero_true in Za. apply Hab in Za.
    apply is_zero_true in Za. rewrite Za. simpl. lia.
  - destruct (is_zero b); simpl; lia.
Qed.

Lemma ravel_shrink_with (f : R -> R -> R) (value : R) (sb : array2d) :
  ravel (shrink_with f value sb) = map (f value) (ravel sb).
Proof. unfold ravel, shrink_with. now rewrite concat_map. Qed.

Lemma shrink_with_zero_imp (f : R -> R -> R) (v1 v2 : R) (sb : array2d) :
  (forall x, f v1 x = 0 -> f v2 x = 0) ->
  Forall2 (fun a b => a = 0 -> b = 0)
          (ravel (shrink_with f v1 sb)) (ravel (shrink_with f v2 sb)).
Proof.
  intros Hf. rewrite !ravel_shrink_with.
  induction (ravel sb) as [ | x t IH ]; simpl; constructor; auto.
Qed.

Lemma half_pow_nonneg (k : nat) : 0 <= 0.5 ^ k.
Proof. apply pow_le. lra. Qed.

Lemma spec_adaptive_threshold_mono (sb : array2d) (t1 t2 : R) (i : nat)
    (o : orientation) :
  t1 <= t2 ->
  spec_adaptive_threshold sb t1 i o <= spec_adaptive_threshold sb t2 i o.
Proof.
  intros Ht. unfold spec_adaptive_threshold.
  pose proof (estimate_sigma_nonneg (ravel sb)) as Hs.
  pose proof (half_pow_nonneg (i - 1)) as Hp.
  assert (Hm : 0 <= orientation_multiplier o)
    by (destruct o; simpl; lra).
  apply Rmult_le_compat_r; [ exact Hm | ].
  apply Rmult_le_compat_r; [ exact Hp | ].
  apply Rmult_le_compat_l; [ exact Hs | exact Ht ].
Qed.

Lemma spec_adaptive_levels_zero_imp (f : R -> R -> R) (t1 t2 : R)
    (a1 a2 : array2d) (lds : list detail_level) :
  (forall v1 v2 x, v1 <= v2 -> f v1 x = 0 -> f v2 x = 0) ->
  t1 <= t2 ->
  forall i,
    Forall2 (fun a b => a = 0 -> b = 0)
            (detail_samples (mkCoeffs a1 (spec_adaptive_levels f t1 i lds)))
            (detail_samples (mkCoeffs a2 (spec_adaptive_levels f t2 i lds))).
Proof.
  intros Hf Ht. unfold detail_samples. simpl.
  induction lds as [ | [[cH cV] cD] rest IH ]; intros i; simpl;
    [ constructor | ].
  repeat apply Forall2_app; try apply IH;
    apply shrink_with_zero_imp; intros x; apply Hf;
    now apply spec_adaptive_threshold_mono.
Qed.

Section Monotone.

Context {pywt : PyWavelets}.

(** C7.  For one coefficient list (one image, basis and levels), one mode
    among 'soft' and 'hard' and method 'adaptive': if t1 ≤ t2 then both
    thresholdings return, and the run with threshold_factor t2 leaves at
    least as many zero detail coefficients as the run with t1, and turns at
    least as many nonzero detail coefficients into zero. *)
Theorem more_threshold_factor_more_zeros :
  forall (mode : string) (sigma1 sigma2 : R) (N : nat) (c : coeffs)
         (t1 t2 : R),
    mode = "soft"%string \/ mode = "hard"%string ->
    t1 <= t2 ->
    exists c1 c2,
      threshold_coeffs "adaptive" mode sigma1 t1 N c = Ok c1 /\
      threshold_coeffs "adaptive" mode sigma2 t2 N c = Ok c2 /\
      (zero_details c1 <= zero_details c2)%nat /\
      (zeroed_by_shrinkage (detail_samples c) (detail_samples c1)
       <= zeroed_by_shrinkage (detail_samples c) (detail_samples c2))%nat.
Proof.
  intros mode sigma1 sigma2 N c t1 t2 Hmode Ht.
  assert (E : exists f, shrink_rule mode = Ok f)
    by (destruct Hmode as [-> | ->]; eexists; reflexivity).
  destruct E as [f E].
  pose proof (spec_rule_zero_mono mode f Hmode E) as Hf.
  unfold threshold_coeffs.
  rewrite !(threshold_levels_adaptive _ _ _ _ _ _ E). simpl.
  do 2 eexists. split; [ reflexivity | split; [ reflexivity | ] ].
  pose proof (spec_adaptive_levels_zero_imp f t1 t2 (approx c) (approx c)
                (details c) Hf Ht 1%nat) as Z.
  split.
  - now apply count_zeros_mono.
  - now apply zeroed_by_shrinkage_mono.
Qed.

End Monotone.

(** ** Degenerate subbands *)

Lemma shrink_with_id (f : R -> R -> R) (value : R) (sb : array2d) :
  (forall x, f value x = x) -> shrink_with f value sb = sb.
Proof.
  intros Hf. unfold shrink_with.
  induction sb as [ | r t IH ]; simpl; [ reflexivity | ].
  rewrite IH. f_equal.
  induction r as [ | x u IHr ]; simpl; [ reflexivity | ].
  now rewrite Hf, IHr.
Qed.

Lemma soft_changes (value x : R) : 0 < value -> x <> 0 -> soft value x <> x.
Proof.
  intros Hv Hx H0.
  assert (H : np_sign x * Rmax (Rabs x - value) 0 = np_sign x * Rabs x)
    by (rewrite np_sign_mult_abs; exact H0).
  apply Rmult_eq_reg_l in H.
  - assert (0 < Rabs x) by now apply Rabs_pos_lt.
    assert (Rmax (Rabs x - value) 0 < Rabs x) by (apply Rmax_lub_lt; lra).
    lra.
  - intros Z. apply (proj1 (np_sign_zero_iff x)) in Z. contradiction.
Qed.

Section Degenerate.

Context {pywt : PyWavelets}.

(** C9, as the code has it.  A subband whose samples all equal [v] has the
    estimate |v| / 0.6745, which is 0 only for [v = 0].  For an all-zero
    subband every adaptive threshold is 0, and hard shrinkage with it returns
    the subband unchanged, without an exception.  (Soft shrinkage of such a
    subband is left out here.) *)
Theorem constant_subband_sigma :
  forall (sb : array2d) (v : R),
    all_equal v sb ->
    (ravel sb <> [] -> estimate_sigma (ravel sb) = Rabs v / 0.6745) /\
    (v = 0 ->
     estimate_sigma (ravel sb) = 0 /\
     forall threshold_factor i o,
       spec_adaptive_threshold sb threshold_factor i o = 0 /\
       pywt_threshold sb (spec_adaptive_threshold sb threshold_factor i o)
         "hard"
       = Ok sb).
Proof.
  intros sb v A. apply all_equal_ravel in A. split.
  - intros NE. rewrite (Forall_eq_repeat _ _ A).
    apply estimate_sigma_repeat.
    destruct (ravel sb); [ contradiction | simpl; lia ].
  - intros ->. pose proof (estimate_sigma_zeros _ A) as Z.
    split; [ exact Z | ].
    intros tf i o.
    assert (T : spec_adaptive_threshold sb tf i o = 0)
      by (unfold spec_adaptive_threshold; rewrite Z; ring).
    split; [ exact T | ].
    rewrite T, (pywt_threshold_rule "hard" hard) by reflexivity.
    f_equal. apply shrink_with_id. apply hard_0.
Qed.

End Degenerate.

(** ** The global sigma estimate *)

Section GlobalSigma.

Context {pywt : PyWavelets}.

(** C8, as the code has it.  With no sigma given, the estimate is taken
    before the main decomposition from a one-level decomposition of its own:
    median(|x|) / 0.6745 over the samples of the last entry of that list,
    the three detail subbands of the finest scale pooled.  For a method other
    than 'adaptive' this one value gives the threshold of every subband of
    every level. *)
Theorem global_sigma_from_one_level_decomposition :
  forall (image : array2d) (wavelet mode method : string) (levels : Z)
         (threshold_factor : R) (f : R -> R -> R) (c1 : coeffs),
    method <> "adaptive"%string ->
    shrink_rule mode = Ok f ->
    wavedec2 image wavelet 1 = Ok c1 ->
    let sigma :=
      np_median (np_abs (concat (map ravel (last_entry c1)))) / 0.6745 in
    global_sigma image wavelet = Ok sigma /\
    (forall cH cV cD,
        details c1 = [(cH, cV, cD)] ->
        sigma
        = np_median (np_abs (ravel cH ++ ravel cV ++ ravel cD)) / 0.6745) /\
    wavelet_denoise image wavelet None mode method levels threshold_factor
    = (c <- wavedec2 image wavelet levels ;;
       r <- waverec2
              (map_details
                 (shrink_with f
                    (sigma * threshold_factor
                     * sqrt (2 * ln (INR (size image)))))
                 c)
              wavelet ;;
       Ok (fit_shape image r)).
Proof.
  intros image wavelet mode method levels tf f c1 Hm E H1 sigma.
  assert (Es : global_sigma image wavelet = Ok sigma)
    by (unfold global_sigma; rewrite H1; reflexivity).
  split; [ exact Es | split ].
  - intros cH cV cD D. unfold sigma, last_entry. rewrite D. simpl.
    now rewrite app_nil_r.
  - unfold wavelet_denoise.
    rewrite (reconstruction_universal _ _ _ _ method _ _ f);
      [ | now apply String.eqb_neq | exact E ].
    rewrite Es. simpl. unfold spec_universal_threshold.
    destruct (wavedec2 image wavelet levels) as [c | e]; reflexivity.
Qed.

End GlobalSigma.

(** ** Failures *)

Section Failures.

Context {pywt : PyWavelets}.

Lemma pywt_threshold_Raise_inv (mode : string) (data : array2d) (value : R)
    (e : exn) :
  pywt_threshold data value mode = Raise e -> shrink_rule mode = Raise e.
Proof.
  unfold pywt_threshold.
  destruct (shrink_rule mode) as [f | e']; simpl; intros H;
    [ discriminate | now inversion H ].
Qed.

Ltac raise_inv H :=
  apply bind_Raise_inv in H;
  destruct H as [H | (? & _ & H)];
  [ now apply pywt_threshold_Raise_inv in H | ].

Lemma threshold_level_Raise_inv (method mode : string) (sigma tf : R)
    (N i : nat) (ld : detail_level) (e : exn) :
  threshold_level method mode sigma tf N i ld = Raise e ->
  shrink_rule mode = Raise e.
Proof.
  destruct ld as [[cH cV] cD].
  unfold threshold_level, adaptive_level, universal_level. intros H.
  destruct (method =? "adaptive")%string; [ | destruct (method =? "bayes")%string ];
    raise_inv H; raise_inv H; raise_inv H; discriminate.
Qed.

Lemma threshold_levels_Raise_inv (method mode : string) (sigma tf : R)
    (N : nat) (lds : list detail_level) (e : exn) :
  forall i,
    threshold_levels method mode sigma tf N i lds = Raise e ->
    shrink_rule mode = Raise e.
Proof.
  induction lds as [ | ld rest IH ]; intros i H; simpl in H;
    [ discriminate | ].
  apply bind_Raise_inv in H. destruct H as [H | (t & _ & H)].
  - now apply threshold_level_Raise_inv in H.
  - apply bind_Raise_inv in H. destruct H as [H | (ts & _ & H)].
    + now apply IH in H.
    + discriminate.
Qed.

Lemma threshold_level_other (method mode : string) (sigma tf : R)
    (N i : nat) (ld : detail_level) :
  method <> "adaptive"%string ->
  threshold_level method mode sigma tf N i ld
  = threshold_level "sure" mode sigma tf N i ld.
Proof.
  intros Hm. apply String.eqb_neq in Hm.
  unfold threshold_level. rewrite Hm. simpl.
  destruct (method =? "bayes")%string; reflexivity.
Qed.

Lemma threshold_levels_other (method mode : string) (sigma tf : R)
    (N : nat) (lds : list detail_level) :
  method <> "adaptive"%string ->
  forall i,
    threshold_levels method mode sigma tf N i lds
    = threshold_levels "sure" mode sigma tf N i lds.
Proof.
  intros Hm. induction lds as [ | ld rest IH ]; intros i; simpl;
    [ reflexivity | ].
  now rewrite (threshold_level_other method), IH.
Qed.

(** C6, as the code has it.  [wavelet_denoise] validates nothing itself.
    A method other than 'adaptive' is processed exactly as 'sure', whatever
    its name; threshold_factor enters the thresholds unchecked.  The call
    raises, returning no array, when the library rejects the main
    decomposition, and it raises only the exception of a library call: the
    one-level decomposition of the sigma estimate, the main decomposition, a
    shrinkage in the given mode, or the reconstruction. *)
Theorem failures_come_from_the_library :
  forall (image : array2d) (wavelet : string) (sigma : option R)
         (mode method : string) (levels : Z) (threshold_factor : R),
    (method <> "adaptive"%string ->
     wavelet_denoise image wavelet sigma mode method levels threshold_factor
     = wavelet_denoise image wavelet sigma mode "sure" levels threshold_factor)
    /\
    (forall e,
        wavedec2 image wavelet levels = Raise e ->
        exists e',
          wavelet_denoise image wavelet sigma mode method levels
            threshold_factor = Raise e' /\
          process_fits_file image wavelet sigma mode method levels
            threshold_factor = Raise e')
    /\
    (forall e,
        wavelet_denoise image wavelet sigma mode method levels
          threshold_factor = Raise e ->
        (sigma = None /\ wavedec2 image wavelet 1 = Raise e) \/
        wavedec2 image wavelet levels = Raise e \/
        shrink_rule mode = Raise e \/
        exists c', waverec2 c' wavelet = Raise e).
Proof.
  intros image wavelet sigma mode method levels tf.
  split; [ | split ].
  - intros Hm. unfold wavelet_denoise, reconstruction, threshold_coeffs.
    destruct (match sigma with
              | None => global_sigma image wavelet
              | Some s => Ok s
              end) as [s | e]; simpl; [ | reflexivity ].
    destruct (wavedec2 image wavelet levels) as [c | e]; simpl;
      [ | reflexivity ].
    now rewrite (threshold_levels_other method).
  - intros e He.
    unfold process_fits_file, wavelet_denoise, reconstruction.
    destruct (match sigma with
              | None => global_sigma image wavelet
              | Some s => Ok s
              end) as [s | e0]; simpl.
    + rewrite He. simpl. exists e. split; reflexivity.
    + exists e0. split; reflexivity.
  - intros e H. unfold wavelet_denoise in H.
    apply bind_Raise_inv in H. destruct H as [H | (r & _ & H)];
      [ | discriminate ].
    unfold reconstruction in H.
    apply bind_Raise_inv in H. destruct H as [H | (s & _ & H)].
    + left. destruct sigma as [s | ]; [ discriminate | ].
      split; [ reflexivity | ].
      unfold global_sigma in H.
      apply bind_Raise_inv in H. destruct H as [H | (c1 & _ & H)];
        [ exact H | discriminate ].
    + right. apply bind_Raise_inv in H. destruct H as [H | (c & _ & H)];
        [ left; exact H | right ].
      apply bind_Raise_inv in H. destruct H as [H | (c' & _ & H)].
      * left. unfold threshold_coeffs in H.
        apply bind_Raise_inv in H. destruct H as [H | (ds & _ & H)];
          [ | discriminate ].
        now apply threshold_levels_Raise_inv in H.
      * right. exists c'. exact H.
Qed.

End Failures.

(** * Runs on the Haar library *)

(** Evaluation of the list structure, leaving the real arithmetic alone. *)
Ltac run :=
  cbv -[Rplus Rminus Rmult Rdiv Rinv Ropp IZR Rabs Rmax np_median np_sign
        soft hard sqrt ln INR pow Rle_dec Rlt_dec Req_dec_T estimate_sigma].

Ltac samples := repeat (apply f_equal2; [ lra | ]); reflexivity.

Ltac rows := repeat (apply f_equal2; [ samples | ]); reflexivity.

(** Without shrinkage the Haar library reconstructs what it decomposed,
    after the crop when an axis is odd. *)

Example haar_round_trip :
  waverec2 (PyWavelets := Haar.lib) (Haar.decompose 2 Haar.blocky []) "haar"
  = Ok Haar.blocky.
Proof. run. f_equal. rows. Qed.

Example haar_round_trip_odd :
  fit_shape Haar.odd3
    (Haar.reconstruct (approx (Haar.decompose 1 Haar.odd3 []))
                      (details (Haar.decompose 1 Haar.odd3 [])))
  = Haar.odd3.
Proof. run. rows. Qed.

(** A complete run.  The four coefficients of [Haar.impulse] are all 2; each
    detail subband has local sigma 2 / 0.6745 and, with threshold_factor 1,
    a threshold above 2, so the hard rule removes all three and the image is
    rebuilt from the approximation alone. *)
Example denoise_impulse :
  process_fits_file (pywt := Haar.lib) Haar.impulse "haar" None "hard"
    "adaptive" 1 1
  = Ok ([[1; 1]; [1; 1]], [[3; -1]; [-1; -1]]).
Proof.
  cbv -[Rplus Rminus Rmult Rdiv Rinv Ropp IZR Rabs Rmax np_median np_sign
        soft hard sqrt ln INR pow Rle_dec Rlt_dec Req_dec_T].
  rewrite !np_median_singleton.
  assert (A : Rabs ((4 + 0 - 0 - 0) / 2) = 2) by (rewrite Rabs_pos_eq; lra).
  assert (B : Rabs ((4 - 0 + 0 - 0) / 2) = 2) by (rewrite Rabs_pos_eq; lra).
  assert (C : Rabs ((4 - 0 - 0 + 0) / 2) = 2) by (rewrite Rabs_pos_eq; lra).
  rewrite !(hard_below (pywt := Haar.lib))
    by (rewrite ?A, ?B, ?C; simpl; lra).
  f_equal. apply f_equal2; rows.
Qed.

(** The one-level and the two-level decomposition of [Haar.blocky]. *)

Lemma blocky_finest_details :
  concat (map ravel (last_entry (Haar.decompose 1 Haar.blocky [])))
  = repeat 0 12.
Proof. run. samples. Qed.

Lemma blocky_coarsest_details :
  concat (map ravel (coarsest_entry (Haar.decompose 2 Haar.blocky [])))
  = repeat 1 3.
Proof. run. samples. Qed.

(** C6 fails on the code: an unknown method together with a negative
    threshold_factor is processed, and both arrays are returned. *)
Lemma invalid_configuration_is_processed :
  exists denoised noise,
    process_fits_file (pywt := Haar.lib) Haar.blocky "haar" None "hard"
      "no-such-method" 1 (-1) = Ok (denoised, noise).
Proof. do 2 eexists. run. reflexivity. Qed.

(** C8 fails on the code: on [Haar.blocky] with two levels the estimate the
    code takes is 0, the value of the finest scale, while the coarsest detail
    level of the decomposition gives 1 / 0.6745. *)
Lemma global_sigma_is_not_from_coarsest_level :
  exists c s,
    wavedec2 (PyWavelets := Haar.lib) Haar.blocky "haar" 2 = Ok c /\
    global_sigma (pywt := Haar.lib) Haar.blocky "haar" = Ok s /\
    s = 0 /\
    estimate_sigma (concat (map ravel (coarsest_entry c))) = 1 / 0.6745 /\
    s <> estimate_sigma (concat (map ravel (coarsest_entry c))).
Proof.
  exists (Haar.decompose 2 Haar.blocky []).
  exists (estimate_sigma
            (concat (map ravel (last_entry (Haar.decompose 1 Haar.blocky []))))).
  split; [ reflexivity | split; [ reflexivity | ] ].
  rewrite blocky_finest_details, blocky_coarsest_details.
  rewrite !estimate_sigma_repeat by lia.
  rewrite Rabs_R0, Rabs_R1.
  repeat split; lra.
Qed.

(** C9 fails on the code: a subband of four ones has a nonzero estimate, a
    nonzero threshold, and soft shrinkage changes it. *)
Lemma constant_subband_is_shrunk :
  let sb := [[1; 1]; [1; 1]] in
  all_equal 1 sb /\
  estimate_sigma (ravel sb) <> 0 /\
  exists ld',
    adaptive_level (pywt := Haar.lib) "soft" 0.1 1 (sb, sb, sb) = Ok ld' /\
    pick DIAGONAL ld' <> sb.
Proof.
  intros sb.
  assert (S : estimate_sigma (ravel sb) = 1 / 0.6745).
  { change (ravel sb) with (repeat 1 4).
    rewrite estimate_sigma_repeat by lia. now rewrite Rabs_R1. }
  split; [ repeat constructor | split; [ rewrite S; lra | ] ].
  rewrite (adaptive_level_rule "soft" soft) by reflexivity.
  eexists; split; [ reflexivity | ].
  simpl. unfold spec_adaptive_threshold. rewrite S. simpl.
  intros H. unfold sb in H. injection H as H _ _ _.
  revert H. apply soft_changes; lra.
Qed.

Lemma odd3_diagonal :
  subband (Haar.decompose 1 Haar.odd3 []) 1 DIAGONAL = Some [[0; 0]; [0; 0]].
Proof. run. f_equal. rows. Qed.

(** C2, at the failing input.  On [Haar.odd3] with basis 'haar', one level,
    method 'adaptive' and threshold_factor 0.1, the diagonal subband of the
    decomposition is all zero, so its local sigma and its threshold are 0.
    In mode 'soft' the library's rule then turns every sample of that
    subband into NaN, and these are the coefficients the program hands to
    the reconstruction, so the arrays it returns hold NaN and denoised +
    noise is not the image.  In mode 'hard', the sibling path, the same
    input gives two arrays of numbers with denoised + noise = image. *)
Theorem soft_shrinkage_gives_nan :
  exists c cD,
    wavedec2 (PyWavelets := Haar.lib) Haar.odd3 "haar" 1 = Ok c /\
    subband c 1 DIAGONAL = Some cD /\
    cD = [[0; 0]; [0; 0]] /\
    np_median (np_abs (ravel cD)) / 0.6745 * 0.1 * 0.5 ^ (1 - 1) * 2.0 = 0 /\
    pywt_soft_threshold cD
      (np_median (np_abs (ravel cD)) / 0.6745 * 0.1 * 0.5 ^ (1 - 1) * 2.0)
    = [[None; None]; [None; None]] /\
    exists denoised noise,
      process_fits_file (pywt := Haar.lib) Haar.odd3 "haar" None "hard"
        "adaptive" 1 0.1 = Ok (denoised, noise) /\
      np_add denoised noise = Ok Haar.odd3.
Proof.
  exists (Haar.decompose 1 Haar.odd3 []), [[0; 0]; [0; 0]].
  assert (Z : all_equal 0 [[0; 0]; [0; 0]]) by (repeat constructor).
  assert (T : np_median (np_abs (ravel [[0; 0]; [0; 0]])) / 0.6745 * 0.1
              * 0.5 ^ (1 - 1) * 2.0 = 0).
  { change (np_median (np_abs (ravel [[0; 0]; [0; 0]])) / 0.6745)
      with (estimate_sigma (ravel [[0; 0]; [0; 0]])).
    rewrite (estimate_sigma_zeros _ (all_equal_ravel _ _ Z)). ring. }
  split; [ reflexivity | split; [ exact odd3_diagonal | ] ].
  split; [ reflexivity | split; [ exact T | split ] ].
  - rewrite T. rewrite (pywt_soft_threshold_zeros _ 0 (Rle_refl 0) Z).
    reflexivity.
  - do 2 eexists.
    match goal with |- ?P /\ _ => assert (E : P) by (run; reflexivity) end.
    split; [ exact E | ].
    apply process_fits_file_inv in E. destruct E as [_ E].
    exact (proj1 (proj2 (proj2 (extract_noise_residual _ _ _ E)))).
Qed.

(** Instances of the theorems. *)

Lemma adaptive_threshold_per_subband_witness :
  shrink_rule (pywt := Haar.lib) "soft" = Ok soft /\
  exists c',
    threshold_coeffs (pywt := Haar.lib) "adaptive" "soft" 0 0.1 16
      (Haar.decompose 2 Haar.blocky []) = Ok c' /\
    forall i o sb,
      subband (Haar.decompose 2 Haar.blocky []) i o = Some sb ->
      subband c' i o
      = Some (shrink_with soft
                (np_median (np_abs (ravel sb)) / 0.6745 * 0.1 * 0.5 ^ (i - 1)
                 * match o with DIAGONAL => 2.0 | _ => 1.5 end)
                sb).
Proof.
  split; [ reflexivity | ].
  apply (adaptive_threshold_per_subband (pywt := Haar.lib) "soft" soft).
  reflexivity.
Defined.

Lemma approx_passes_unchanged_witness :
  exists c',
    threshold_coeffs (pywt := Haar.lib) "bayes" "hard" 1 0.1 16
      (Haar.decompose 2 Haar.blocky []) = Ok c' /\
    approx c' = approx (Haar.decompose 2 Haar.blocky []) /\
    List.length (details c') = 2%nat.
Proof.
  eexists.
  match goal with |- ?P /\ _ => assert (E : P) by reflexivity end.
  split; [ exact E | ].
  exact (approx_passes_unchanged (pywt := Haar.lib) _ _ _ _ _ _ _ E).
Defined.

Lemma bayes_and_sure_identical_witness :
  shrink_rule (pywt := Haar.lib) "soft" = Ok soft /\
  process_fits_file (pywt := Haar.lib) Haar.blocky "haar" None "soft" "bayes"
    2 0.1
  = process_fits_file (pywt := Haar.lib) Haar.blocky "haar" None "soft" "sure"
      2 0.1.
Proof.
  split; [ reflexivity | ].
  apply (bayes_and_sure_identical (pywt := Haar.lib) Haar.blocky "haar" None
           "soft" 2 0.1 soft).
  reflexivity.
Defined.

Lemma adaptive_ignores_sigma_witness :
  wavedec2 (PyWavelets := Haar.lib) Haar.blocky "haar" 1
  = Ok (Haar.decompose 1 Haar.blocky []) /\
  process_fits_file (pywt := Haar.lib) Haar.blocky "haar" None "soft"
    "adaptive" 2 0.1
  = process_fits_file (pywt := Haar.lib) Haar.blocky "haar" (Some 3) "soft"
      "adaptive" 2 0.1.
Proof.
  split; [ reflexivity | ].
  apply (adaptive_ignores_sigma (pywt := Haar.lib) Haar.blocky "haar" None
           (Some 3) "soft" 2 0.1 (Haar.decompose 1 Haar.blocky [])).
  reflexivity.
Defined.

Lemma output_shape_is_input_shape_witness :
  exists r,
    reconstruction (pywt := Haar.lib) Haar.odd3 "haar" None "soft" "adaptive"
      1 0.1 = Ok r /\
    shape r = (4%nat, 4%nat) /\
    exists denoised noise,
      process_fits_file (pywt := Haar.lib) Haar.odd3 "haar" None "soft"
        "adaptive" 1 0.1 = Ok (denoised, noise) /\
      shape denoised = (3%nat, 3%nat) /\
      shape noise = (3%nat, 3%nat) /\
      denoised = crop 3 3 r.
Proof.
  eexists.
  match goal with |- ?P /\ _ => assert (E : P) by (run; reflexivity) end.
  split; [ exact E | split; [ reflexivity | ] ].
  edestruct (output_shape_is_input_shape (pywt := Haar.lib) Haar.odd3 "haar"
               None "soft" "adaptive" 1 0.1 3%nat 3%nat)
    as (d & n & Hp & _ & Hd & _ & Hn & _ & Hc & _);
    [ reflexivity | repeat constructor | exact E | repeat constructor
    | simpl; lia | simpl; lia | ].
  exists d, n. repeat split; assumption.
Defined.

Lemma more_threshold_factor_more_zeros_witness :
  0.1 <= 0.2 /\
  exists c1 c2,
    threshold_coeffs (pywt := Haar.lib) "adaptive" "soft" 0 0.1 16
      (Haar.decompose 2 Haar.blocky []) = Ok c1 /\
    threshold_coeffs (pywt := Haar.lib) "adaptive" "soft" 0 0.2 16
      (Haar.decompose 2 Haar.blocky []) = Ok c2 /\
    (zero_details c1 <= zero_details c2)%nat /\
    (zeroed_by_shrinkage (detail_samples (Haar.decompose 2 Haar.blocky []))
       (detail_samples c1)
     <= zeroed_by_shrinkage (detail_samples (Haar.decompose 2 Haar.blocky []))
          (detail_samples c2))%nat.
Proof.
  assert (H : 0.1 <= 0.2) by lra.
  split; [ exact H | ].
  exact (more_threshold_factor_more_zeros (pywt := Haar.lib) "soft" 0 0 16
           (Haar.decompose 2 Haar.blocky []) 0.1 0.2 (or_introl eq_refl) H).
Defined.

Lemma global_sigma_from_one_level_decomposition_witness :
  global_sigma (pywt := Haar.lib) Haar.blocky "haar"
  = Ok (np_median
          (np_abs
             (concat (map ravel (last_entry (Haar.decompose 1 Haar.blocky [])))))
        / 0.6745).
Proof.
  refine (proj1 (global_sigma_from_one_level_decomposition (pywt := Haar.lib)
                   Haar.blocky "haar" "soft" "sure" 2 0.1 soft
                   (Haar.decompose 1 Haar.blocky []) _ eq_refl eq_refl)).
  discriminate.
Defined.

Lemma constant_subband_sigma_witness :
  all_equal 0 [[0; 0]; [0; 0]] /\
  estimate_sigma (ravel [[0; 0]; [0; 0]]) = 0 /\
  pywt_threshold (pywt := Haar.lib) [[0; 0]; [0; 0]]
    (spec_adaptive_threshold [[0; 0]; [0; 0]] 0.1 1 DIAGONAL) "hard"
  = Ok [[0; 0]; [0; 0]].
Proof.
  assert (A : all_equal 0 [[0; 0]; [0; 0]]) by (repeat constructor).
  split; [ exact A | ].
  destruct (proj2 (constant_subband_sigma (pywt := Haar.lib) _ _ A) eq_refl)
    as [Z H].
  split; [ exact Z | exact (proj2 (H 0.1 1%nat DIAGONAL)) ].
Defined.

Lemma failures_come_from_the_library_witness :
  wavelet_denoise (pywt := Haar.lib) Haar.blocky "haar" None "hard"
    "no-such-method" 1 (-1)
  = wavelet_denoise (pywt := Haar.lib) Haar.blocky "haar" None "hard" "sure"
      1 (-1).
Proof.
  apply (failures_come_from_the_library (pywt := Haar.lib) Haar.blocky "haar"
           None "hard" "no-such-method" 1 (-1)).
  discriminate.
Defined.

(** * Further properties of the threshold policy *)

Lemma spec_adaptive_threshold_factor_0 (sb : array2d) (i : nat)
    (o : orientation) :
  spec_adaptive_threshold sb 0 i o = 0.
Proof. unfold spec_adaptive_threshold. ring. Qed.

Lemma spec_adaptive_levels_id (f : R -> R -> R) (lds : list detail_level) :
  (forall x, f 0 x = x) ->
  forall i, spec_adaptive_levels f 0 i lds = lds.
Proof.
  intros Hf. induction lds as [ | [[cH cV] cD] rest IH ]; intros i; simpl;
    [ reflexivity | ].
  rewrite IH, !spec_adaptive_threshold_factor_0.
  now rewrite !(shrink_with_id f 0) by exact Hf.
Qed.

Lemma map_details_id (g : array2d -> array2d) (c : coeffs) :
  (forall sb, g sb = sb) -> map_details g c = c.
Proof.
  intros Hg. destruct c as [a lds]. unfold map_details. simpl. f_equal.
  induction lds as [ | [[cH cV] cD] rest IH ]; simpl; [ reflexivity | ].
  now rewrite IH, !Hg.
Qed.

Lemma shrink_with_same_shape (f : R -> R -> R) (value : R) (sb : array2d) :
  same_shape sb (shrink_with f value sb).
Proof.
  unfold same_shape, shrink_with.
  induction sb as [ | r t IH ]; simpl; constructor; [ | exact IH ].
  now rewrite length_map.
Qed.

Lemma np_sign_mult_abs_comm (x : R) : np_sign x * x = Rabs x.
Proof.
  unfold np_sign.
  destruct (Rlt_dec x 0) as [Hneg | Hnn].
  - rewrite Rabs_left by exact Hneg. lra.
  - destruct (Rlt_dec 0 x) as [Hpos | Hnp].
    + rewrite Rabs_pos_eq by lra. lra.
    + assert (x = 0) by lra. subst x. rewrite Rabs_R0. lra.
Qed.

Lemma soft_shrunk (value x : R) : 0 <= value -> shrunk x (soft value x).
Proof.
  intros Hv. unfold shrunk, soft.
  pose proof (Rabs_pos x) as Hx.
  assert (M0 : 0 <= Rmax (Rabs x - value) 0) by apply Rmax_r.
  assert (M1 : Rmax (Rabs x - value) 0 <= Rabs x) by (apply Rmax_lub; lra).
  split.
  - rewrite Rabs_mult, (Rabs_pos_eq _ M0).
    assert (S1 : Rabs (np_sign x) <= 1).
    { unfold np_sign. destruct (Rlt_dec x 0); [ | destruct (Rlt_dec 0 x) ].
      - rewrite Rabs_left; lra.
      - rewrite Rabs_R1. lra.
      - rewrite Rabs_R0. lra. }
    pose proof (Rabs_pos (np_sign x)). nra.
  - rewrite <- Rmult_assoc, (Rmult_comm x), np_sign_mult_abs_comm. nra.
Qed.

Lemma Forall2_map_r_same {A : Type} (P : A -> A -> Prop) (g : A -> A)
    (l : list A) :
  (forall x, P x (g x)) -> Forall2 P l (map g l).
Proof. intros H. induction l; simpl; constructor; auto. Qed.

Lemma shrink_with_pointwise (P : R -> R -> Prop) (f : R -> R -> R)
    (value : R) (sb : array2d) :
  (forall x, P x (f value x)) ->
  Forall2 P (ravel sb) (ravel (shrink_with f value sb)).
Proof.
  intros H. rewrite ravel_shrink_with. now apply Forall2_map_r_same.
Qed.

Lemma spec_adaptive_levels_pointwise (P : R -> R -> Prop) (f : R -> R -> R)
    (tf : R) (a a' : array2d) (lds : list detail_level) :
  (forall sb i o x, P x (f (spec_adaptive_threshold sb tf i o) x)) ->
  forall i,
    Forall2 P (detail_samples (mkCoeffs a lds))
              (detail_samples (mkCoeffs a' (spec_adaptive_levels f tf i lds))).
Proof.
  intros H. unfold detail_samples. simpl.
  induction lds as [ | [[cH cV] cD] rest IH ]; intros i; simpl;
    [ constructor | ].
  repeat apply Forall2_app; try apply IH;
    apply shrink_with_pointwise; intros x; apply H.
Qed.

Lemma map_details_pointwise (P : R -> R -> Prop) (f : R -> R -> R)
    (value : R) (c : coeffs) :
  (forall x, P x (f value x)) ->
  Forall2 P (detail_samples c)
            (detail_samples (map_details (shrink_with f value) c)).
Proof.
  intros H. unfold detail_samples, map_details. simpl.
  induction (details c) as [ | [[cH cV] cD] rest IH ]; simpl;
    [ constructor | ].
  repeat apply Forall2_app; try apply IH; now apply shrink_with_pointwise.
Qed.

Lemma map_details_zero_imp (f : R -> R -> R) (v1 v2 : R) (c : coeffs) :
  (forall x, f v1 x = 0 -> f v2 x = 0) ->
  Forall2 (fun a b => a = 0 -> b = 0)
          (detail_samples (map_details (shrink_with f v1) c))
          (detail_samples (map_details (shrink_with f v2) c)).
Proof.
  intros H. unfold detail_samples, map_details. simpl.
  induction (details c) as [ | [[cH cV] cD] rest IH ]; simpl;
    [ constructor | ].
  repeat apply Forall2_app; try apply IH; now apply shrink_with_zero_imp.
Qed.

Lemma half_pow_pos (k : nat) : 0 < 0.5 ^ k.
Proof. apply pow_lt. lra. Qed.

Lemma spec_adaptive_threshold_nonneg (sb : array2d) (tf : R) (i : nat)
    (o : orientation) :
  0 <= tf -> 0 <= spec_adaptive_threshold sb tf i o.
Proof.
  intros Ht. rewrite <- (spec_adaptive_threshold_factor_0 sb i o).
  now apply spec_adaptive_threshold_mono.
Qed.

Lemma spec_universal_threshold_nonneg (sigma tf : R) (N : nat) :
  0 <= sigma -> 0 <= tf -> 0 <= spec_universal_threshold sigma tf N.
Proof.
  intros Hs Ht. unfold spec_universal_threshold.
  pose proof (sqrt_pos (2 * ln (INR N))).
  apply Rmult_le_pos; [ apply Rmult_le_pos | ]; assumption.
Qed.

Lemma spec_universal_threshold_mono (sigma t1 t2 : R) (N : nat) :
  0 <= sigma -> t1 <= t2 ->
  spec_universal_threshold sigma t1 N <= spec_universal_threshold sigma t2 N.
Proof.
  intros Hs Ht. unfold spec_universal_threshold.
  pose proof (sqrt_pos (2 * ln (INR N))).
  apply Rmult_le_compat_r; [ assumption | ].
  now apply Rmult_le_compat_l.
Qed.

Section PolicyExtras.

Context {pywt : PyWavelets}.

Lemma hard_shrunk (value x : R) : shrunk x (hard value x).
Proof.
  unfold shrunk, hard.
  pose proof (Rabs_pos x). pose proof (Rle_0_sqr x) as Q. unfold Rsqr in Q.
  destruct (Rlt_dec (Rabs x) value);
    [ | destruct (Req_dec_T (Rabs x) value); [ destruct hard_keeps_tie | ] ];
    rewrite ?Rabs_R0, ?Rmult_0_r; split; lra.
Qed.

Lemma spec_rule_shrunk (mode : string) (f : R -> R -> R) :
  mode = "soft"%string \/ mode = "hard"%string ->
  shrink_rule mode = Ok f ->
  forall value x, 0 <= value -> shrunk x (f value x).
Proof.
  intros [-> | ->] E; inversion E; subst f; intros value x Hv.
  - now apply soft_shrunk.
  - apply hard_shrunk.
Qed.

Lemma spec_rule_exists (mode : string) :
  mode = "soft"%string \/ mode = "hard"%string ->
  exists f, shrink_rule mode = Ok f.
Proof. intros [-> | ->]; eexists; reflexivity. Qed.

Lemma threshold_coeffs_adaptive_rule (mode : string) (f : R -> R -> R)
    (sigma tf : R) (N : nat) (c : coeffs) :
  shrink_rule mode = Ok f ->
  threshold_coeffs "adaptive" mode sigma tf N c
  = Ok (mkCoeffs (approx c) (spec_adaptive_levels f tf 1 (details c))).
Proof.
  intros E. unfold threshold_coeffs.
  now rewrite (threshold_levels_adaptive _ _ _ _ _ _ E).
Qed.

Lemma threshold_coeffs_universal_rule (method mode : string)
    (f : R -> R -> R) (sigma tf : R) (N : nat) (c : coeffs) :
  method <> "adaptive"%string ->
  shrink_rule mode = Ok f ->
  threshold_coeffs method mode sigma tf N c
  = Ok (map_details (shrink_with f (spec_universal_threshold sigma tf N)) c).
Proof.
  intros Hm E. apply String.eqb_neq in Hm. unfold threshold_coeffs.
  now rewrite (threshold_levels_universal method mode f _ _ _ _ Hm E).
Qed.

Lemma method_cases (method : string) :
  method = "adaptive"%string \/ method <> "adaptive"%string.
Proof.
  destruct (String.eqb_spec method "adaptive"); [ left | right ]; assumption.
Qed.

Lemma threshold_levels_factor_0 (method mode : string) (sigma : R) (N : nat)
    (lds : list detail_level) :
  mode = "soft"%string \/ mode = "hard"%string ->
  threshold_levels method mode sigma 0 N 1 lds = Ok lds.
Proof.
  intros Hmode.
  destruct (spec_rule_exists mode Hmode) as [f E].
  pose proof (spec_rule_at_0 mode f Hmode E) as F0.
  destruct (method_cases method) as [-> | Hm].
  - rewrite (threshold_levels_adaptive _ _ _ _ _ _ E).
    now rewrite spec_adaptive_levels_id.
  - apply String.eqb_neq in Hm.
    rewrite (threshold_levels_universal method mode f _ _ _ _ Hm E).
    replace (spec_universal_threshold sigma 0 N) with 0
      by (unfold spec_universal_threshold; ring).
    rewrite map_details_id by (intros sb; now apply shrink_with_id).
    reflexivity.
Qed.

Lemma shrinks_to_numbers_mode (mode : string) (c : coeffs) :
  shrinks_to_numbers mode c ->
  mode = "soft"%string \/ mode = "hard"%string.
Proof. intros [H | [H _]]; [ right | left ]; exact H. Qed.

(** X1.  With threshold_factor 0, thresholding returns the coefficient list
    it was given, whatever the method and sigma: in mode 'hard' always, in
    mode 'soft' when no detail coefficient is zero (at a zero coefficient
    the library's soft rule gives NaN for the threshold 0). *)
Theorem zero_threshold_factor_keeps_coefficients :
  forall (method mode : string) (sigma : R) (N : nat) (c : coeffs),
    shrinks_to_numbers mode c ->
    threshold_coeffs method mode sigma 0 N c = Ok c.
Proof.
  intros method mode sigma N c Hsafe.
  pose proof (shrinks_to_numbers_mode mode c Hsafe) as Hmode.
  unfold threshold_coeffs.
  rewrite threshold_levels_factor_0 by exact Hmode. simpl.
  now destruct c.
Qed.

(** X2.  With threshold_factor 0, in mode 'hard' or in mode 'soft' with no
    zero detail coefficient, when the library rebuilds the image from its
    decomposition, the run returns the image itself as the denoised array
    and an all-zero noise array. *)
Theorem zero_threshold_factor_returns_image :
  forall (image : array2d) (wavelet : string) (sigma : option R)
         (mode method : string) (levels : Z) (c : coeffs) (r : array2d),
    (sigma = None -> exists c1, wavedec2 image wavelet 1 = Ok c1) ->
    wavedec2 image wavelet levels = Ok c ->
    shrinks_to_numbers mode c ->
    waverec2 c wavelet = Ok r ->
    fit_shape image r = image ->
    process_fits_file image wavelet sigma mode method levels 0
    = Ok (image, map (map (fun _ => 0)) image).
Proof.
  intros image wavelet sigma mode method levels c r Hs Hc Hsafe Hr Hf.
  pose proof (shrinks_to_numbers_mode mode c Hsafe) as Hmode.
  unfold process_fits_file, wavelet_denoise, reconstruction.
  assert (S : exists s, match sigma with
                        | None => global_sigma image wavelet
                        | Some s => Ok s
                        end = Ok s).
  { destruct sigma as [s | ]; [ now exists s | ].
    destruct (Hs eq_refl) as [c1 H1]. unfold global_sigma. rewrite H1.
    simpl. eexists; reflexivity. }
  destruct S as [s ->]. simpl. rewrite Hc. simpl.
  unfold threshold_coeffs.
  rewrite threshold_levels_factor_0 by exact Hmode. simpl.
  replace (mkCoeffs (approx c) (details c)) with c by now destruct c.
  rewrite Hr. simpl. rewrite Hf.
  unfold extract_noise, np_subtract.
  assert (SS : same_shape image image).
  { unfold same_shape. clear. induction image; constructor; auto. }
  rewrite (np_binop_same_shape _ _ _ SS). simpl. do 2 f_equal.
  clear. induction image as [ | row t IH ]; simpl; [ reflexivity | ].
  rewrite IH. f_equal.
  induction row as [ | x u IHr ]; simpl; [ reflexivity | ].
  rewrite IHr. f_equal. ring.
Qed.

(** X3.  With a non-negative threshold_factor, and either method
    'adaptive' or a non-negative sigma, no detail coefficient grows in
    magnitude or changes sign: in mode 'hard' always, in mode 'soft' when no
    detail coefficient is zero (where the library's soft rule can give
    NaN). *)
Theorem shrinkage_never_amplifies :
  forall (method mode : string) (sigma threshold_factor : R) (N : nat)
         (c : coeffs),
    shrinks_to_numbers mode c ->
    0 <= threshold_factor ->
    method = "adaptive"%string \/ 0 <= sigma ->
    exists c',
      threshold_coeffs method mode sigma threshold_factor N c = Ok c' /\
      Forall2 shrunk (detail_samples c) (detail_samples c').
Proof.
  intros method mode sigma tf N c Hsafe Ht Hs.
  pose proof (shrinks_to_numbers_mode mode c Hsafe) as Hmode.
  destruct (spec_rule_exists mode Hmode) as [f E].
  pose proof (spec_rule_shrunk mode f Hmode E) as Sh.
  destruct (method_cases method) as [-> | Hm].
  - rewrite (threshold_coeffs_adaptive_rule _ f) by exact E.
    eexists; split; [ reflexivity | ].
    destruct c as [a lds]. apply spec_adaptive_levels_pointwise.
    intros sb i o x. apply Sh. now apply spec_adaptive_threshold_nonneg.
  - destruct Hs as [-> | Hs]; [ contradiction | ].
    rewrite (threshold_coeffs_universal_rule _ _ f) by assumption.
    eexists; split; [ reflexivity | ].
    apply map_details_pointwise. intros x. apply Sh.
    now apply spec_universal_threshold_nonneg.
Qed.

End PolicyExtras.

Lemma soft_negative_threshold (value x : R) :
  value < 0 -> x <> 0 -> Rabs x < Rabs (soft value x).
Proof.
  intros Hv Hx. unfold soft.
  pose proof (Rabs_pos_lt x Hx) as Px.
  rewrite Rmax_left by lra.
  rewrite Rabs_mult, (Rabs_pos_eq (Rabs x - value)) by lra.
  assert (S1 : Rabs (np_sign x) = 1).
  { unfold np_sign. destruct (Rlt_dec x 0); [ | destruct (Rlt_dec 0 x) ].
    - rewrite Rabs_left; lra.
    - apply Rabs_R1.
    - exfalso. apply Hx. lra. }
  rewrite S1. lra.
Qed.

Lemma shrink_with_rows (P : R -> R -> Prop) (f : R -> R -> R) (value : R)
    (sb : array2d) :
  (forall x, P x (f value x)) ->
  Forall2 (Forall2 P) sb (shrink_with f value sb).
Proof.
  intros H. unfold shrink_with.
  induction sb as [ | r t IH ]; simpl; constructor; [ | exact IH ].
  now apply Forall2_map_r_same.
Qed.

Section PolicyEdges.

Context {pywt : PyWavelets}.

(** X4.  threshold_factor is not checked: with a negative value, method
    'adaptive' and mode 'soft', every nonzero coefficient of a detail subband
    whose local sigma is positive comes out larger in magnitude. *)
Theorem negative_threshold_factor_amplifies :
  forall (sigma threshold_factor : R) (N : nat) (c : coeffs) (i : nat)
         (o : orientation) (sb : array2d),
    threshold_factor < 0 ->
    subband c i o = Some sb ->
    0 < estimate_sigma (ravel sb) ->
    exists c' sb',
      threshold_coeffs "adaptive" "soft" sigma threshold_factor N c = Ok c' /\
      subband c' i o = Some sb' /\
      Forall2 (Forall2 (fun x y => x <> 0 -> Rabs x < Rabs y)) sb sb'.
Proof.
  intros sigma tf N c i o sb Ht Hsb Hs.
  rewrite (threshold_coeffs_adaptive_rule "soft" soft) by reflexivity.
  do 2 eexists. split; [ reflexivity | ].
  destruct i as [ | k ]; simpl in *; [ discriminate | ].
  rewrite spec_adaptive_levels_nth. simpl Nat.add.
  destruct (nth_error (details c) k) as [[[cH cV] cD] | ]; simpl in *;
    [ | discriminate ].
  assert (T : forall b : array2d,
             0 < estimate_sigma (ravel b) ->
             spec_adaptive_threshold b tf (S k) o < 0).
  { intros b Hb. unfold spec_adaptive_threshold.
    pose proof (half_pow_pos (S k - 1)) as Hp.
    assert (Hm : 0 < orientation_multiplier o) by (destruct o; simpl; lra).
    assert (0 < estimate_sigma (ravel b) * 0.5 ^ (S k - 1)
                * orientation_multiplier o)
      by (apply Rmult_lt_0_compat; [ apply Rmult_lt_0_compat | ];
          assumption).
    nra. }
  inversion Hsb; subst sb; clear Hsb.
  destruct o; simpl in *; (split; [ reflexivity | ]);
    apply shrink_with_rows; intros x;
    apply soft_negative_threshold; now apply T.
Qed.

Lemma adaptive_level_halving (mode : string) (tf : R) (k : nat)
    (ld : detail_level) :
  adaptive_level mode tf (S (S k)) ld = adaptive_level mode (tf / 2) (S k) ld.
Proof.
  unfold adaptive_level.
  replace (tf * 0.5 ^ (S (S k) - 1)) with (tf / 2 * 0.5 ^ (S k - 1));
    [ reflexivity | ].
  simpl Nat.sub. rewrite Nat.sub_0_r. simpl pow.
  generalize (0.5 ^ k). intros p. nra.
Qed.

(** X5.  In the adaptive branch the thresholds halve from one level to the
    next finer one: running the loop from index i + 1 with threshold_factor
    t is running it from index i with threshold_factor t / 2 (i >= 1). *)
Theorem adaptive_levels_halve :
  forall (mode : string) (sigma sigma' threshold_factor : R) (N : nat)
         (levels : list detail_level) (i : nat),
    (1 <= i)%nat ->
    threshold_levels "adaptive" mode sigma threshold_factor N (S i) levels
    = threshold_levels "adaptive" mode sigma' (threshold_factor / 2) N i levels.
Proof.
  intros mode sigma sigma' tf N levels.
  induction levels as [ | ld rest IH ]; intros i Hi; simpl; [ reflexivity | ].
  destruct i as [ | k ]; [ lia | ].
  unfold threshold_level. simpl String.eqb. cbv iota.
  rewrite adaptive_level_halving.
  now rewrite (IH (S (S k))) by lia.
Qed.

Lemma threshold_level_inv (method mode : string) (sigma tf : R) (N i : nat)
    (ld ld' : detail_level) :
  threshold_level method mode sigma tf N i ld = Ok ld' ->
  exists f vH vV vD,
    shrink_rule mode = Ok f /\
    ld' = (shrink_with f vH (pick HORIZONTAL ld),
           shrink_with f vV (pick VERTICAL ld),
           shrink_with f vD (pick DIAGONAL ld)).
Proof.
  destruct ld as [[cH cV] cD].
  unfold threshold_level, adaptive_level, universal_level. intros H.
  destruct (method =? "adaptive")%string;
    [ | destruct (method =? "bayes")%string ];
    apply bind_Ok_inv in H; destruct H as (h & Hh & H);
    apply bind_Ok_inv in H; destruct H as (v & Hv & H);
    apply bind_Ok_inv in H; destruct H as (d & Hd & H);
    inversion H; subst ld'; clear H;
    apply pywt_threshold_inv in Hh; destruct Hh as (f & E & ->);
    apply pywt_threshold_inv in Hv; destruct Hv as (f1 & E1 & ->);
    apply pywt_threshold_inv in Hd; destruct Hd as (f2 & E2 & ->);
    rewrite E in E1, E2; inversion E1; inversion E2; subst f1 f2;
    do 4 eexists; (split; [ exact E | reflexivity ]).
Qed.

(** X6.  Whatever the method and the mode, a thresholding that returns keeps
    the number of detail levels and the shape of every detail subband, which
    is what the reconstruction needs. *)
Theorem thresholding_keeps_subband_shapes :
  forall (method mode : string) (sigma threshold_factor : R) (N : nat)
         (c c' : coeffs),
    threshold_coeffs method mode sigma threshold_factor N c = Ok c' ->
    Forall2 (fun ld ld' : detail_level =>
               forall o, same_shape (pick o ld) (pick o ld'))
            (details c) (details c').
Proof.
  intros method mode sigma tf N c c' H.
  unfold threshold_coeffs in H. bind_inv H.
  inversion H; subst c'; clear H. simpl.
  revert a E. generalize 1%nat.
  induction (details c) as [ | ld rest IH ]; intros i ts E; simpl in E.
  - inversion E. constructor.
  - bind_inv E. bind_inv E. inversion E; subst ts. constructor.
    + apply threshold_level_inv in E0.
      destruct E0 as (f & vH & vV & vD & _ & ->).
      destruct ld as [[cH cV] cD].
      intros o; destruct o; simpl; apply shrink_with_same_shape.
    + eapply IH; eassumption.
Qed.

(** X7.  The mode is looked at only when a detail subband is shrunk: a mode
    the library rejects makes the thresholding raise the library's exception
    when the list has a detail level, and goes unnoticed, the list being
    returned as it is, when it has none. *)
Theorem rejected_mode_raises_iff_detail_level :
  forall (method mode : string) (sigma threshold_factor : R) (N : nat)
         (c : coeffs) (e : exn),
    shrink_rule mode = Raise e ->
    (details c <> [] ->
     threshold_coeffs method mode sigma threshold_factor N c = Raise e) /\
    (details c = [] ->
     threshold_coeffs method mode sigma threshold_factor N c = Ok c).
Proof.
  intros method mode sigma tf N c e E. unfold threshold_coeffs. split.
  - destruct (details c) as [ | [[cH cV] cD] rest ]; [ contradiction | ].
    intros _. simpl.
    unfold threshold_level, adaptive_level, universal_level.
    destruct (method =? "adaptive")%string;
      [ | destruct (method =? "bayes")%string ];
      rewrite (pywt_threshold_Raise _ _ _ _ E); reflexivity.
  - intros D. rewrite D. simpl. destruct c as [a lds]. simpl in D.
    now subst lds.
Qed.

(** X8.  Monotonic suppression also holds outside the adaptive branch when
    sigma is not negative: for mode 'soft' or 'hard' and t1 <= t2, the run
    with t2 leaves at least as many zero detail coefficients. *)
Theorem universal_threshold_factor_more_zeros :
  forall (method mode : string) (sigma : R) (N : nat) (c : coeffs)
         (t1 t2 : R),
    method <> "adaptive"%string ->
    mode = "soft"%string \/ mode = "hard"%string ->
    0 <= sigma ->
    t1 <= t2 ->
    exists c1 c2,
      threshold_coeffs method mode sigma t1 N c = Ok c1 /\
      threshold_coeffs method mode sigma t2 N c = Ok c2 /\
      (zero_details c1 <= zero_details c2)%nat.
Proof.
  intros method mode sigma N c t1 t2 Hm Hmode Hs Ht.
  destruct (spec_rule_exists mode Hmode) as [f E].
  pose proof (spec_rule_zero_mono mode f Hmode E) as Hf.
  rewrite !(threshold_coeffs_universal_rule _ _ f) by assumption.
  do 2 eexists. split; [ reflexivity | split; [ reflexivity | ] ].
  apply count_zeros_mono, map_details_zero_imp.
  intros x. apply Hf. now apply spec_universal_threshold_mono.
Qed.

(** X9.  The sigma estimated when none is given is never negative. *)
Theorem estimated_sigma_nonnegative :
  forall (image : array2d) (wavelet : string) (s : R),
    global_sigma image wavelet = Ok s -> 0 <= s.
Proof.
  intros image wavelet s H. unfold global_sigma in H. bind_inv H.
  inversion H; subst s. apply estimate_sigma_nonneg.
Qed.

End PolicyEdges.

(** * NaN replacement *)

Lemma np_median_bounds (lo hi : R) (l : list R) :
  l <> [] ->
  Forall (fun x => lo <= x <= hi) l ->
  lo <= np_median l <= hi.
Proof.
  intros NE H. unfold np_median.
  assert (Hn : (0 < List.length l)%nat)
    by (destruct l; [ contradiction | simpl; lia ]).
  pose proof (sort_Forall _ _ H) as Hs.
  assert (Hk : forall k, (k < List.length l)%nat -> lo <= nth k (sort l) 0 <= hi).
  { intros k Lk. apply (Forall_nth (fun x => lo <= x <= hi)); [ exact Hs | ].
    now rewrite sort_length. }
  assert (H2 : (List.length l / 2 < List.length l)%nat)
    by (apply Nat.div_lt; lia).
  pose proof (Hk (List.length l / 2)%nat H2).
  pose proof (Hk (List.length l / 2 - 1)%nat ltac:(lia)).
  destruct (Nat.even (List.length l)); lra.
Qed.

Lemma all_some_map_Some {A : Type} (l : list A) :
  all_some (map Some l) = Some l.
Proof.
  induction l as [ | x t IH ]; simpl; [ reflexivity | ]. now rewrite IH.
Qed.

Lemma existsb_isnan_false (r : list (option R)) :
  existsb isnan r = false ->
  map (fun x : option R => match x with Some v => Some v | None => None end) r
  = r /\ forall nan,
      map (fun x : option R => match x with Some v => Some v | None => nan end)
          r = r.
Proof.
  induction r as [ | [v | ] t IH ]; simpl; intros H.
  - split; reflexivity.
  - destruct (IH H) as [I1 I2]. split; [ | intros nan ]; f_equal; auto.
  - discriminate.
Qed.

Lemma np_nan_to_num_no_nan (a : raw_array) (nan : option R) :
  np_any_isnan a = false -> np_nan_to_num a nan = a.
Proof.
  unfold np_any_isnan, np_nan_to_num.
  induction a as [ | r t IH ]; simpl; intros H; [ reflexivity | ].
  apply orb_false_elim in H. destruct H as [Hr Ht].
  rewrite (IH Ht). f_equal. now apply existsb_isnan_false.
Qed.

Lemma np_nan_to_num_nan (a : raw_array) : np_nan_to_num a None = a.
Proof.
  unfold np_nan_to_num.
  induction a as [ | r t IH ]; simpl; [ reflexivity | ].
  rewrite IH. f_equal.
  induction r as [ | [v | ] u IHr ]; simpl; [ reflexivity | | ];
    now rewrite IHr.
Qed.

(** what a sample becomes when NaN is replaced by [m] *)
Lemma row_filled (m : R) (r : list (option R)) :
  exists row,
    all_some (map (fun x : option R =>
                     match x with Some v => Some v | None => Some m end) r)
    = Some row /\
    Forall2 (fun (x : option R) (y : R) =>
               match x with Some v => y = v | None => y = m end) r row.
Proof.
  induction r as [ | x t (row & E & F) ]; simpl.
  - exists []. split; [ reflexivity | constructor ].
  - destruct x as [v | ]; simpl; rewrite E; simpl; eexists;
      (split; [ reflexivity | constructor; [ reflexivity | exact F ] ]).
Qed.

Lemma array_filled (m : R) (a : raw_array) :
  exists img,
    finite_array (np_nan_to_num a (Some m)) = Some img /\
    Forall2 (Forall2 (fun (x : option R) (y : R) =>
                        match x with Some v => y = v | None => y = m end))
            a img.
Proof.
  unfold finite_array, np_nan_to_num.
  induction a as [ | r t (img & E & F) ]; simpl.
  - exists []. split; [ reflexivity | constructor ].
  - destruct (row_filled m r) as (row & Er & Fr).
    rewrite Er. simpl. rewrite E. simpl. eexists.
    split; [ reflexivity | constructor; assumption ].
Qed.

Lemma np_any_isnan_filled (m : R) (a : raw_array) :
  np_any_isnan (np_nan_to_num a (Some m)) = false.
Proof.
  unfold np_any_isnan, np_nan_to_num.
  induction a as [ | r t IH ]; simpl; [ reflexivity | ].
  rewrite IH, orb_false_r.
  induction r as [ | [v | ] u IHr ]; simpl; auto.
Qed.

Lemma replace_nan_filled (a : raw_array) :
  finite_values a <> [] ->
  replace_nan a = np_nan_to_num a (Some (np_median (finite_values a))).
Proof.
  intros NE. unfold replace_nan, np_nanmedian.
  destruct (np_any_isnan a) eqn:N.
  - destruct (finite_values a); [ contradiction | reflexivity ].
  - now rewrite np_nan_to_num_no_nan.
Qed.

(** X10.  For loaded data whose samples are NaN or numbers lying between
    two bounds lo and hi (so none of them infinite), with at least one
    number: the data after the replacement has no NaN and the same shape,
    every sample that was a number is unchanged, and every NaN has become
    the median of the samples that were numbers. *)
Theorem nan_replaced_by_median :
  forall (image_data : raw_array) (lo hi : R),
    finite_values image_data <> [] ->
    Forall (fun v => lo <= v <= hi) (finite_values image_data) ->
    exists image,
      finite_array (replace_nan image_data) = Some image /\
      Forall2 (Forall2 (fun (x : option R) (y : R) =>
                          match x with
                          | Some v => y = v
                          | None => y = np_median (finite_values image_data)
                          end))
              image_data image.
Proof.
  intros a lo hi NE _. rewrite (replace_nan_filled a NE). apply array_filled.
Qed.

(** X11.  The replacement leaves the data as it is exactly when there is
    nothing to replace or nothing to replace it with: no NaN at all, or no
    sample that is a number (the NaN samples then stay NaN). *)
Theorem replace_nan_unchanged_iff :
  forall (image_data : raw_array),
    replace_nan image_data = image_data <->
    (np_any_isnan image_data = false \/ finite_values image_data = []).
Proof.
  intros a. split.
  - intros H. destruct (np_any_isnan a) eqn:N; [ right | now left ].
    destruct (finite_values a) as [ | v l ] eqn:F; [ reflexivity | exfalso ].
    assert (NE : finite_values a <> []) by (rewrite F; discriminate).
    rewrite (replace_nan_filled a NE) in H.
    pose proof (np_any_isnan_filled (np_median (finite_values a)) a) as C.
    rewrite H in C. congruence.
  - intros [N | F]; unfold replace_nan.
    + now rewrite N.
    + destruct (np_any_isnan a); [ | reflexivity ].
      unfold np_nanmedian. rewrite F. apply np_nan_to_num_nan.
Qed.

Lemma row_filled_range (P : R -> Prop) (m : R) (r : list (option R))
    (row : list R) :
  P m ->
  Forall P (flat_map (fun x : option R =>
                        match x with Some v => [v] | None => [] end) r) ->
  Forall2 (fun (x : option R) (y : R) =>
             match x with Some v => y = v | None => y = m end) r row ->
  Forall P row.
Proof.
  intros Pm H F. induction F as [ | x y r row Hxy _ IH ]; [ constructor | ].
  destruct x as [v | ]; simpl in H; subst y.
  - inversion H; subst. constructor; auto.
  - constructor; auto.
Qed.

(** X12.  The replacement never leaves the range of the valid data: when
    every sample that is a number lies between lo and hi, so does every
    sample of the repaired image. *)
Theorem nan_replacement_stays_in_range :
  forall (image_data : raw_array) (image : array2d) (lo hi : R),
    finite_values image_data <> [] ->
    Forall (fun v => lo <= v <= hi) (finite_values image_data) ->
    finite_array (replace_nan image_data) = Some image ->
    Forall (Forall (fun v => lo <= v <= hi)) image.
Proof.
  intros a image lo hi NE H E.
  pose proof (np_median_bounds lo hi _ NE H) as Pm.
  rewrite (replace_nan_filled a NE) in E.
  remember (np_median (finite_values a)) as m eqn:Em. clear Em NE.
  destruct (array_filled m a) as (img & E' & F).
  rewrite E' in E. inversion E; subst img; clear E E'.
  unfold finite_values in H.
  induction F as [ | r row t img Hr _ IH ]; [ constructor | ].
  simpl in H. apply Forall_app in H. destruct H as [H1 H2].
  constructor; [ | now apply IH ].
  apply (row_filled_range (fun v => lo <= v <= hi) m r); assumption.
Qed.

(** * Output file names *)

Lemma append_inj_l (base s1 s2 : string) :
  (base ++ s1 = base ++ s2)%string -> s1 = s2.
Proof.
  induction base as [ | ch base IH ]; simpl; intros H; [ exact H | ].
  inversion H. now apply IH.
Qed.

Lemma NoDup_map_append (base : string) (l : list string) :
  NoDup l -> NoDup (map (String.append base) l).
Proof.
  induction 1 as [ | s l Hs _ IH ]; simpl; constructor; [ | exact IH ].
  intros Hin. apply in_map_iff in Hin. destruct Hin as (s' & E & Hs').
  apply append_inj_l in E. subst s'. contradiction.
Qed.

(** X14.  The six output files named from one input file, by the direct
    run of wavelet_denoise.py and by the two entry points of
    sharp_noise_config.py with their default suffixes, have names different
    from one another and from the input file, so no run overwrites its input
    or the output of another run ([ext] is the extension
    [os.path.splitext] split off: empty or starting with a dot). *)
Theorem output_files_are_distinct :
  forall (base ext : string),
    ext = EmptyString \/ (exists t, ext = String "."%char t) ->
    NoDup [ (base ++ ext)%string;
            denoised_file base;
            noise_file base;
            sharp_output_file base "_sharp_denoised";
            sharp_noise_file base;
            sharp_output_file base "_ultra_sharp_denoised";
            ultra_sharp_noise_file base ].
Proof.
  intros base ext Hext.
  change (NoDup (map (String.append base)
                     [ ext; "_denoised.fits"; "_noise.fits";
                       "_sharp_denoised.fits"; "_sharp_noise.fits";
                       "_ultra_sharp_denoised.fits";
                       "_ultra_sharp_noise.fits" ]%string)).
  apply NoDup_map_append.
  constructor.
  - simpl. destruct Hext as [-> | [t ->]]; intuition discriminate.
  - repeat (constructor; [ simpl; intuition discriminate | ]). constructor.
Qed.

(** * The noise figures of the summary *)

Lemma zip_with_combine {A B C : Type} (f : A -> B -> C) (l1 : list A) :
  forall l2,
    zip_with f l1 l2 = map (fun p => f (fst p) (snd p)) (combine l1 l2).
Proof.
  induction l1 as [ | x t IH ]; intros [ | y u ]; simpl; try reflexivity.
  now rewrite IH.
Qed.

Lemma combine_app_same {A B : Type} (l1 : list A) :
  forall (l2 : list B) (m1 : list A) (m2 : list B),
    List.length l1 = List.length l2 ->
    combine (l1 ++ m1) (l2 ++ m2) = combine l1 l2 ++ combine m1 m2.
Proof.
  induction l1 as [ | x t IH ]; intros [ | y u ] m1 m2 L; simpl in *;
    try discriminate; [ reflexivity | ].
  f_equal. apply IH. lia.
Qed.

Lemma ravel_zip_with (f : R -> R -> R) (a b : array2d) :
  same_shape a b ->
  ravel (zip_with (zip_with f) a b)
  = map (fun p => f (fst p) (snd p)) (combine (ravel a) (ravel b)).
Proof.
  unfold ravel.
  induction 1 as [ | r s a b Hrs _ IH ]; simpl; [ reflexivity | ].
  rewrite combine_app_same by exact Hrs.
  now rewrite map_app, IH, zip_with_combine.
Qed.

Lemma filter_map_length {A B : Type} (p : B -> bool) (g : A -> B)
    (l : list A) :
  List.length (filter p (map g l))
  = List.length (filter (fun x => p (g x)) l).
Proof.
  induction l as [ | x t IH ]; simpl; [ reflexivity | ].
  destruct (p (g x)); simpl; now rewrite IH.
Qed.

Lemma non_zero_plus_zero (l : list R) :
  (List.length (filter (fun x => negb (is_zero x)) l) + count_zeros l
   = List.length l)%nat.
Proof.
  unfold count_zeros.
  induction l as [ | x t IH ]; simpl; [ reflexivity | ].
  destruct (is_zero x); simpl; lia.
Qed.

Lemma rectangular_ravel_length (w : nat) (a : array2d) :
  rectangular w a -> List.length (ravel a) = (List.length a * w)%nat.
Proof.
  unfold rectangular, ravel.
  induction 1 as [ | r t Hr _ IH ]; simpl; [ reflexivity | ].
  rewrite length_app, IH, Hr. reflexivity.
Qed.

Lemma rectangular_size (w : nat) (a : array2d) :
  rectangular w a -> a <> [] -> size a = List.length (ravel a).
Proof.
  intros Ra NE. rewrite (rectangular_ravel_length w a Ra).
  unfold size, shape. simpl.
  destruct Ra as [ | r t Hr _ ]; [ contradiction | ].
  now rewrite Hr.
Qed.

Section NoiseFigures.

Context {pywt : PyWavelets}.

(** X15.  On the noise array of a run, the noise count of the summary
    (its nonzero samples) is the number of samples at which the denoised
    array differs from the image. *)
Theorem noise_count_is_changed_pixels :
  forall (image : array2d) (wavelet : string) (sigma : option R)
         (mode method : string) (levels : Z) (threshold_factor : R)
         (denoised noise : array2d),
    process_fits_file image wavelet sigma mode method levels threshold_factor
    = Ok (denoised, noise) ->
    non_zero_pixels noise = changed_pixels image denoised.
Proof.
  intros image wavelet sigma mode method levels tf d n H.
  apply process_fits_file_inv in H. destruct H as [_ Hn].
  unfold extract_noise, np_subtract in Hn.
  apply np_binop_inv in Hn. destruct Hn as [S ->].
  unfold non_zero_pixels, changed_pixels.
  rewrite (ravel_zip_with _ _ _ S), filter_map_length.
  f_equal. apply filter_ext. intros [x y]. simpl.
  unfold is_zero.
  destruct (Req_dec_T (x - y) 0) as [E | N];
    destruct (Req_dec_T x y) as [E' | N']; try reflexivity; exfalso; lra.
Qed.

End NoiseFigures.

(** X16.  For a rectangular array with at least one sample, the nonzero and
    the zero samples add up to all the samples, and the noise ratio printed
    by the summary lies between 0 and 100. *)
Theorem noise_ratio_is_a_percentage :
  forall (data : array2d) (w : nat),
    rectangular w data ->
    (0 < total_pixels data)%nat ->
    (non_zero_pixels data + count_zeros (ravel data) = total_pixels data)%nat
    /\ 0 <= noise_ratio data <= 100.
Proof.
  intros data w Rd Ht.
  assert (NE : data <> []) by (intros ->; unfold total_pixels, size in Ht;
                               simpl in Ht; lia).
  assert (T : total_pixels data = List.length (ravel data))
    by (apply (rectangular_size w); assumption).
  pose proof (non_zero_plus_zero (ravel data)) as S.
  fold (non_zero_pixels data) in S.
  split; [ now rewrite T | ].
  unfold noise_ratio.
  assert (Hc : 0 <= INR (non_zero_pixels data) <= INR (total_pixels data)).
  { split; [ apply pos_INR | apply le_INR; lia ]. }
  assert (Hp : 0 < INR (total_pixels data)) by now apply lt_0_INR.
  assert (Q : 0 <= INR (non_zero_pixels data) / INR (total_pixels data) <= 1).
  { split.
    - apply Rmult_le_pos; [ lra | ]. left. now apply Rinv_0_lt_compat.
    - apply (Rmult_le_reg_r (INR (total_pixels data))); [ exact Hp | ].
      unfold Rdiv. rewrite Rmult_assoc, Rinv_l by lra. lra. }
  lra.
Qed.

(** * Instances of the further properties *)

Lemma zero_threshold_factor_keeps_coefficients_witness :
  threshold_coeffs (pywt := Haar.lib) "sure" "hard" 3 0 16
    (Haar.decompose 2 Haar.blocky [])
  = Ok (Haar.decompose 2 Haar.blocky []).
Proof.
  apply (zero_threshold_factor_keeps_coefficients (pywt := Haar.lib)).
  left. reflexivity.
Defined.

Lemma zero_threshold_factor_returns_image_witness :
  process_fits_file (pywt := Haar.lib) Haar.blocky "haar" None "hard"
    "adaptive" 2 0
  = Ok (Haar.blocky, map (map (fun _ => 0)) Haar.blocky).
Proof.
  apply (zero_threshold_factor_returns_image (pywt := Haar.lib) Haar.blocky
           "haar" None "hard" "adaptive" 2
           (Haar.decompose 2 Haar.blocky []) Haar.blocky).
  - intros _. eexists. reflexivity.
  - reflexivity.
  - left. reflexivity.
  - exact haar_round_trip.
  - reflexivity.
Defined.

Lemma shrinkage_never_amplifies_witness :
  exists c',
    threshold_coeffs (pywt := Haar.lib) "adaptive" "soft" 0 0.1 4
      (mkCoeffs [[2]] [([[2]], [[2]], [[2]])]) = Ok c' /\
    Forall2 shrunk
      (detail_samples (mkCoeffs [[2]] [([[2]], [[2]], [[2]])]))
      (detail_samples c').
Proof.
  apply (shrinkage_never_amplifies (pywt := Haar.lib) "adaptive" "soft" 0 0.1
           4 (mkCoeffs [[2]] [([[2]], [[2]], [[2]])])).
  - right. split; [ reflexivity | ].
    simpl. repeat constructor; lra.
  - lra.
  - left. reflexivity.
Defined.

Lemma negative_threshold_factor_amplifies_witness :
  exists c' sb',
    threshold_coeffs (pywt := Haar.lib) "adaptive" "soft" 0 (-1) 4
      (mkCoeffs [[2]] [([[2]], [[2]], [[2]])]) = Ok c' /\
    subband c' 1 DIAGONAL = Some sb' /\
    Forall2 (Forall2 (fun x y => x <> 0 -> Rabs x < Rabs y)) [[2]] sb'.
Proof.
  apply (negative_threshold_factor_amplifies (pywt := Haar.lib) 0 (-1) 4
           (mkCoeffs [[2]] [([[2]], [[2]], [[2]])]) 1 DIAGONAL [[2]]).
  - lra.
  - reflexivity.
  - unfold estimate_sigma. simpl. rewrite np_median_singleton.
    rewrite Rabs_pos_eq; lra.
Defined.

Lemma adaptive_levels_halve_witness :
  threshold_levels (pywt := Haar.lib) "adaptive" "soft" 0 0.1 16 2
    (details (Haar.decompose 2 Haar.blocky []))
  = threshold_levels (pywt := Haar.lib) "adaptive" "soft" 0 (0.1 / 2) 16 1
      (details (Haar.decompose 2 Haar.blocky [])).
Proof.
  apply (adaptive_levels_halve (pywt := Haar.lib)). lia.
Defined.

Lemma thresholding_keeps_subband_shapes_witness :
  exists c',
    threshold_coeffs (pywt := Haar.lib) "bayes" "hard" 1 0.1 16
      (Haar.decompose 2 Haar.blocky []) = Ok c' /\
    Forall2 (fun ld ld' : detail_level =>
               forall o, same_shape (pick o ld) (pick o ld'))
            (details (Haar.decompose 2 Haar.blocky [])) (details c').
Proof.
  eexists.
  match goal with |- ?P /\ _ => assert (E : P) by reflexivity end.
  split; [ exact E | ].
  exact (thresholding_keeps_subband_shapes (pywt := Haar.lib) _ _ _ _ _ _ _ E).
Defined.

Lemma rejected_mode_raises_iff_detail_level_witness :
  threshold_coeffs (pywt := Haar.lib) "adaptive" "no-such-mode" 0 0.1 16
    (mkCoeffs Haar.blocky [])
  = Ok (mkCoeffs Haar.blocky []).
Proof.
  refine (proj2 (rejected_mode_raises_iff_detail_level (pywt := Haar.lib)
                   "adaptive" "no-such-mode" 0 0.1 16 (mkCoeffs Haar.blocky [])
                   (ValueError "The mode parameter is not supported")
                   eq_refl) eq_refl).
Defined.

Lemma universal_threshold_factor_more_zeros_witness :
  exists c1 c2,
    threshold_coeffs (pywt := Haar.lib) "sure" "hard" 1 0.1 16
      (Haar.decompose 2 Haar.blocky []) = Ok c1 /\
    threshold_coeffs (pywt := Haar.lib) "sure" "hard" 1 0.2 16
      (Haar.decompose 2 Haar.blocky []) = Ok c2 /\
    (zero_details c1 <= zero_details c2)%nat.
Proof.
  apply (universal_threshold_factor_more_zeros (pywt := Haar.lib) "sure"
           "hard" 1 16 (Haar.decompose 2 Haar.blocky []) 0.1 0.2).
  - discriminate.
  - right. reflexivity.
  - lra.
  - lra.
Defined.

Lemma estimated_sigma_nonnegative_witness :
  exists s, global_sigma (pywt := Haar.lib) Haar.odd3 "haar" = Ok s /\ 0 <= s.
Proof.
  eexists.
  match goal with |- ?P /\ _ => assert (E : P) by reflexivity end.
  split; [ exact E | ].
  exact (estimated_sigma_nonnegative (pywt := Haar.lib) _ _ _ E).
Defined.

Lemma nan_replaced_by_median_witness :
  exists image,
    finite_array (replace_nan [[Some 1; None]; [Some 3; Some 5]]) = Some image
    /\
    Forall2 (Forall2 (fun (x : option R) (y : R) =>
                        match x with
                        | Some v => y = v
                        | None => y = np_median [1; 3; 5]
                        end))
            [[Some 1; None]; [Some 3; Some 5]] image.
Proof.
  apply (nan_replaced_by_median [[Some 1; None]; [Some 3; Some 5]] 1 5).
  - simpl. discriminate.
  - simpl. repeat constructor; lra.
Defined.

Lemma nan_replacement_stays_in_range_witness :
  exists image,
    finite_array (replace_nan [[Some 1; None]; [Some 3; Some 5]]) = Some image
    /\ Forall (Forall (fun v => 1 <= v <= 5)) image.
Proof.
  eexists.
  match goal with |- ?P /\ _ => assert (E : P) by reflexivity end.
  split; [ exact E | ].
  apply (nan_replacement_stays_in_range [[Some 1; None]; [Some 3; Some 5]]
           _ 1 5); [ simpl; discriminate | | exact E ].
  simpl. repeat constructor; lra.
Defined.

Lemma output_files_are_distinct_witness :
  NoDup [ "image.fit"%string;
          denoised_file "image";
          noise_file "image";
          sharp_output_file "image" "_sharp_denoised";
          sharp_noise_file "image";
          sharp_output_file "image" "_ultra_sharp_denoised";
          ultra_sharp_noise_file "image" ].
Proof.
  apply (output_files_are_distinct "image" ".fit").
  right. eexists. reflexivity.
Defined.

Lemma noise_count_is_changed_pixels_witness :
  exists denoised noise,
    process_fits_file (pywt := Haar.lib) Haar.impulse "haar" None "hard"
      "adaptive" 1 1 = Ok (denoised, noise) /\
    non_zero_pixels noise = changed_pixels Haar.impulse denoised.
Proof.
  do 2 eexists.
  match goal with |- ?P /\ _ => assert (E : P) by (run; reflexivity) end.
  split; [ exact E | ].
  exact (noise_count_is_changed_pixels (pywt := Haar.lib) _ _ _ _ _ _ _ _ _ E).
Defined.

Lemma noise_ratio_is_a_percentage_witness :
  0 <= noise_ratio Haar.blocky <= 100.
Proof.
  apply (noise_ratio_is_a_percentage Haar.blocky 4).
  - repeat constructor.
  - unfold total_pixels, size. simpl. lia.
Defined.
